(** * ALLHiC: linkage graph, path extraction, contact store and tour pruning

    A shallow embedding of [graph.go] and [clm.go].

    Conventions of the embedding:
    - Go's [float64] is IEEE 754 binary64 with round-to-nearest-even, which is
      exactly Rocq's primitive [float]; comparisons are the primitive ones, so
      every comparison with a NaN is false, as in Go.
    - A [*Node] pointer is [option positive]: [None] is [nil], [Some p] is the
      address of a [Node] object.
    - Go maps are [gmap]s.  The order in which [range] enumerates a map is
      unspecified in Go; it is an explicit parameter [range] of the functions
      that iterate, constrained only to enumerate each entry once.
    - A run-time panic (index out of range, nil dereference) is the result
      [Panic].
    - Functions and constants that the two files use and do not define
      ([OutlierCutoff], [MINSIZE], [Tour.Evaluate], [GoldenArray], [HmeanInt],
      [math.Log]) are [Variable]s of the sections that need them: every
      theorem holds for all of them.
    - The arithmetic of [makeConfidenceGraph] is written once over a class
      [Num], with the instances binary64 (the program) and exact rationals.

    The definitions come first; the theorems follow, by function:
    [breakCycle], [dfs], [makeConfidenceGraph], [ParseClm] and the pruning
    passes. *)
From Stdlib Require Import ZArith Floats QArith Qcanon Lia Lqa Ascii String.
From stdpp Require Import gmap strings list fin_maps sorting.

(** ** Results of fallible code *)

Inductive result (A : Type) : Type :=
| Done (x : A)
| Panic
| OutOfFuel.
Arguments Done {A} x.
Arguments Panic {A}.
Arguments OutOfFuel {A}.

#[global] Instance result_bind : MBind result := fun A B k r =>
  match r with
  | Done x => k x
  | Panic => Panic
  | OutOfFuel => OutOfFuel
  end.

#[global] Instance result_ret : MRet result := fun A x => Done x.

(** ** float64 *)

Module Float64.

(** Go's [x < y], [x > y], [x <= y] and [x == y] on [float64]. *)
Definition lt (x y : float) : bool := PrimFloat.ltb x y.
Definition gt (x y : float) : bool := PrimFloat.ltb y x.
Definition le (x y : float) : bool := PrimFloat.leb x y.
Definition eq (x y : float) : bool := PrimFloat.eqb x y.

(** [math.MaxFloat64], the largest finite value. *)
Definition MaxFloat64 : float := 0x1.fffffffffffffp+1023%float.

(** [float64(n)] for an integer [n]: the nearest binary64, ties to even. *)
Definition ofInt (n : Z) : float :=
  SF2Prim (binary_normalize prec emax n 0 false).

(** [x != x], Go's test for NaN. *)
Definition isNaN (x : float) : bool := negb (eq x x).

End Float64.

(** ** graph.go: nodes, edges and the linkage graph *)

(** [*Node]: [None] is the nil pointer. *)
Abbreviation Node := (option positive).

(** [type Edge struct { a, b *Node; weight float64 }] *)
Record Edge : Type := mkEdge {
  edge_a : Node;
  edge_b : Node;
  weight : float
}.

(** [type Graph map[*Node]map[*Node]float64] *)
Abbreviation Graph := (gmap Node (gmap Node float)).

(** [func (r *Edge) isSister() bool { return r.weight == 0 }] *)
Definition isSister (r : Edge) : bool := Float64.eq (weight r) 0.

(** *** breakCycle

    The loop of [breakCycle] from position [i] on, with the current values of
    [minI] and [minWeight]. *)
Fixpoint weakestFrom (i minI : nat) (minWeight : float) (path : list Edge) : nat * float :=
  match path with
  | [] => (minI, minWeight)
  | edge :: rest =>
      if Float64.gt (weight edge) 1 && Float64.lt (weight edge) minWeight
      then weakestFrom (S i) i (weight edge) rest
      else weakestFrom (S i) minI minWeight rest
  end.

(** [minI, minWeight := 0, math.MaxFloat64] and the loop over the whole path. *)
Definition weakest (path : list Edge) : nat * float :=
  weakestFrom 0 0 Float64.MaxFloat64 path.

(** [return append(path[minI+1:], path[:minI]...)].  The slice expression
    [path[minI+1:]] panics when [minI+1 > len(path)], which happens exactly for
    the empty path.  The appended elements land behind the end of [path] (or
    in a fresh array), so they never overwrite [path[:minI]]. *)
Definition breakCycle (path : list Edge) : result (list Edge) :=
  let minI := fst (weakest path) in
  if decide (minI + 1 <= length path)
  then Done (drop (minI + 1) path ++ take minI path)
  else Panic.

(** An edge the loop can select: [edge.weight > 1 && edge.weight < math.MaxFloat64]. *)
Definition breakable (edge : Edge) : bool :=
  Float64.gt (weight edge) 1 && Float64.lt (weight edge) Float64.MaxFloat64.

(** *** Enumeration order of maps

    [for k, v := range m] visits every entry of [m] once, in an order Go does
    not specify.  A [ranger] fixes one such order for every map. *)
Definition ranger : Type := forall V : Type, gmap Node V -> list (Node * V).

Definition ranger_ok (range : ranger) : Prop :=
  forall (V : Type) (m : gmap Node V), range V m ≡ₚ map_to_list m.

(** *** dfs

    [visited] is the Go map [map[*Node]bool], whose entries are only ever
    [true]: a set.  It is mutated in place, so the final set is returned with
    the path.  [sister p] is the field [sister] of the node at address [p].
    The recursion of the source is bounded by [fuel]. *)
Fixpoint dfs (fuel : nat) (range : ranger) (sister : positive -> Node) (G : Graph)
    (a : Node) (path : list Edge) (visited : gset Node) (visitSister : bool)
    : result (list Edge * bool * gset Node) :=
  match fuel with
  | O => OutOfFuel
  | S fuel =>
      if decide (a ∈ visited) then Done (path, true, visited)
      else
        let visited := {[a]} ∪ visited in
        if visitSister then
          match a with
          | None => Panic
          | Some p =>
              dfs fuel range sister G (sister p)
                (path ++ [mkEdge a (sister p) 0]) visited false
          end
        else
          match G !! a with
          | Some nb =>
              let bw := match range float nb with
                        | [] => (None, 0%float)
                        | bw :: _ => bw
                        end in
              dfs fuel range sister G bw.1
                (path ++ [mkEdge a bw.1 bw.2]) visited true
          | None => Done (path, false, visited)
          end
  end.

(** [reversePath] *)
Definition reversePath (path : list Edge) : list Edge :=
  (fun e => mkEdge (edge_b e) (edge_a e) (weight e)) <$> reverse path.

(** The body of the loop of [generatePathAndCycle] for one unvisited start
    node [a], up to the edge sequence handed to [mergePath]. *)
Definition walk (fuel : nat) (range : ranger) (sister : positive -> Node) (G : Graph)
    (a : Node) (visited : gset Node) : result (list Edge * gset Node) :=
  '(path1, isCycle, visited) ← dfs fuel range sister G a [] visited true;
  if isCycle : bool then
    path1 ← breakCycle path1;
    Done (path1, visited)
  else
    '(path2, _, visited) ← dfs fuel range sister G a [] (visited ∖ {[a]}) false;
    Done (reversePath path1 ++ path2, visited).

(** *** Arithmetic of edge weights

    [makeGraph] and [makeConfidenceGraph] compute on [float64].  They are
    written once over the operations they use, so that the same code can be
    read on binary64 (what the program runs) and on exact rationals (the
    arithmetic without rounding, overflow or NaN). *)
Class Num (F : Type) : Type := {
  num_zero : F;
  num_one : F;
  num_lt : F -> F -> bool;
  num_le : F -> F -> bool;
  num_eq : F -> F -> bool;
  num_mul : F -> F -> F;
  num_div : F -> F -> F;
  num_ofInt : Z -> F
}.

Definition num_gt {F : Type} `{Num F} (x y : F) : bool := num_lt y x.

(** binary64: the program as it runs. *)
#[global] Instance float64_num : Num float := {|
  num_zero := 0%float;
  num_one := 1%float;
  num_lt := Float64.lt;
  num_le := Float64.le;
  num_eq := Float64.eq;
  num_mul := PrimFloat.mul;
  num_div := PrimFloat.div;
  num_ofInt := Float64.ofInt
|}.

(** Exact rationals. *)
#[global] Instance exact_num : Num Qc := {|
  num_zero := 0%Qc;
  num_one := 1%Qc;
  num_lt := fun x y => bool_decide (x < y)%Qc;
  num_le := fun x y => bool_decide (x <= y)%Qc;
  num_eq := fun x y => bool_decide (x = y);
  num_mul := Qcmult;
  num_div := Qcdiv;
  num_ofInt := fun n => Q2Qc (inject_Z n)
|}.

(** A loop body that can panic, run over a list. *)
Fixpoint foldM {A S : Type} (f : S -> A -> result S) (l : list A) (s : S) : result S :=
  match l with
  | [] => Done s
  | x :: l => s' ← f s x; foldM f l s'
  end.

Section Confidence.
Context {F : Type} `{Num F}.

(** The weight of the edge [(a, b)] of a graph, if it has one. *)
Definition edgeWeight (G : gmap Node (gmap Node F)) (a b : Node) : option F :=
  nb ← G !! a; nb !! b.

(** The normalisation loop that ends [makeGraph]:
    [G[a][b] = score / (float64(a.path.length) * float64(b.path.length))]
    for every entry.  [length a] is [a.path.length]; the graph it is applied
    to holds the accumulated link scores. *)
Definition normalizeEdges (length : Node -> Z) (G : gmap Node (gmap Node F))
    : gmap Node (gmap Node F) :=
  map_imap (fun a nb =>
    Some (map_imap (fun b score =>
      Some (num_div score (num_mul (num_ofInt (length a)) (num_ofInt (length b))))) nb)) G.

(** The body of the first loop of [makeConfidenceGraph]. *)
Definition twoLargestStep (acc : F * F) (score : F) : F * F :=
  let '(first, second) := acc in
  if num_gt score first then (score, first)
  else if num_le score first && num_gt score second then (first, score)
  else (first, second).

(** [first, second := 0.0, 0.0], the loop over the scores, and the slice
    [[]float64{first, second}]. *)
Definition twoLargestOf (scores : list F) : list F :=
  let '(first, second) := fold_left twoLargestStep scores (num_zero, num_zero) in
  [first; second].

(** The map [twoLargest] after the first pass. *)
Definition twoLargest (range : ranger) (G : gmap Node (gmap Node F)) : gmap Node (list F) :=
  fold_left (fun tl anb => <[anb.1 := twoLargestOf ((range F anb.2).*2)]> tl)
    (range _ G) ∅.

(** [sort.Float64s]: ascending, NaN before every other value.  Its order is
    [x < y || (isNaN(x) && !isNaN(y))] with [isNaN(x) = (x != x)]. *)
Definition less (x y : F) : bool :=
  num_lt x y || (negb (num_eq x x) && num_eq y y).

(** A slice of fewer than 12 elements is sorted by insertion: each element in
    turn is swapped towards the front while it is [less] than its left
    neighbour.  [sorted] is the part already sorted, last element first. *)
Fixpoint insertSorted (x : F) (sorted : list F) : list F :=
  match sorted with
  | [] => [x]
  | y :: rest => if less x y then y :: insertSorted x rest else x :: sorted
  end.

Definition sortFloat64s (l : list F) : list F :=
  reverse (fold_left (fun sorted x => insertSorted x sorted) l []).

(** [getSecondLargest].  Indexing [A[3]] panics when [A] has fewer than four
    elements. *)
Definition getSecondLargest (a b : list F) : result F :=
  match sortFloat64s (a ++ b) with
  | _ :: A1 :: A2 :: A3 :: _ =>
      let largest := A3 in
      let secondLargest := A2 in
      Done (if num_eq largest secondLargest && num_gt A1 num_zero
            then A1 else secondLargest)
  | _ => Panic
  end.

(** The body of the second loop for the edge [(a, b)]: the state is the graph
    [G], divided in place, and [confidenceGraph].  A missing entry of
    [twoLargest] reads as the nil slice. *)
Definition confidenceStep (tl : gmap Node (list F)) (a : Node)
    (st : gmap Node (gmap Node F) * gmap Node (gmap Node F)) (b : Node)
    : result (gmap Node (gmap Node F) * gmap Node (gmap Node F)) :=
  let '(G, confidenceGraph) := st in
  secondLargest ← getSecondLargest (default [] (tl !! a)) (default [] (tl !! b));
  match G !! a with
  | None => Panic
  | Some nb =>
      let q := num_div (default num_zero (nb !! b)) secondLargest in
      let G := <[a := <[b := q]> nb]> G in
      if num_gt q num_one then
        match confidenceGraph !! a with
        | Some row => Done (G, <[a := <[b := q]> row]> confidenceGraph)
        | None => Done (G, <[a := {[b := q]}]> confidenceGraph)
        end
      else Done (G, confidenceGraph)
  end.

(** [makeConfidenceGraph]: the graph [G] as the call leaves it, and the
    returned confidence graph. *)
Definition makeConfidenceGraph (range : ranger) (G : gmap Node (gmap Node F))
    : result (gmap Node (gmap Node F) * gmap Node (gmap Node F)) :=
  let tl := twoLargest range G in
  foldM (fun st anb => foldM (confidenceStep tl anb.1) ((range F anb.2).*1) st)
    (range _ G) (G, ∅).

End Confidence.

(** ** clm.go: the contact store *)

(** [rr], the flip of an orientation byte. *)
Definition rr (b : ascii) : ascii :=
  if decide (b = "-"%char) then "+"%char else "-"%char.

(** [type Contact struct { strandedness, nlinks, meanDist int }] *)
Module Contact.
Record t : Type := mk {
  strandedness : Z;
  nlinks : Z;
  meanDist : Z
}.
End Contact.

(** [type Pair struct { ai, bi int }], the key of [contacts]. *)
Abbreviation Pair := (Z * Z)%type.

(** [type OrientedPair struct { ai, bi int; ao, bo byte }], the key of
    [orientedContacts]. *)
Abbreviation OrientedPair := (Z * Z * ascii * ascii)%type.

(** [type TigF struct] *)
Module TigF.
Record t : Type := mk {
  Idx : Z;
  Name : string;
  Size : Z;
  IsActive : bool
}.
End TigF.

(** [type Tig struct] *)
Module Tig.
Record t : Type := mk {
  Idx : Z;
  Size : Z
}.
End Tig.

(** [type Tour struct] *)
Module Tour.
Record t : Type := mk {
  Tigs : list Tig.t;
  M : list (list Z)
}.
End Tour.

(** The fields of [CLMFile] that the parser and the pruning passes use.
    [GArray], the type of the histograms, is declared outside [clm.go]. *)
Module CLMFile.
Record t (GArray : Type) : Type := mk {
  Tigs : list TigF.t;
  Tour : Tour.t;
  tigToIdx : gmap string Z;
  contacts : gmap Pair Contact.t;
  orientedContacts : gmap OrientedPair GArray
}.
Arguments mk {GArray}.
Arguments Tigs {GArray}.
Arguments Tour {GArray}.
Arguments tigToIdx {GArray}.
Arguments contacts {GArray}.
Arguments orientedContacts {GArray}.
End CLMFile.

Section ContactStore.
Context {GArray : Type}.

(** The end of the loop body of [ParseClm] (the lines after [gdists] and
    [meanDist] are computed): the update of [contacts] and of
    [orientedContacts] for the record of the contigs [ai], [bi] with the
    orientations [ao], [bo]. *)
Definition storeRecord (r : CLMFile.t GArray) (ai bi : Z) (ao bo : ascii)
    (nlinks : Z) (gdists : GArray) (meanDist : Z) : CLMFile.t GArray :=
  let strandedness := if decide (ao <> bo) then (-1)%Z else 1%Z in
  let pair : Pair := (ai, bi) in
  let c := Contact.mk strandedness nlinks meanDist in
  let contacts :=
    match CLMFile.contacts r !! pair with
    | Some p =>
        if decide (Contact.meanDist p > meanDist)%Z
        then <[pair := c]> (CLMFile.contacts r)
        else CLMFile.contacts r
    | None => <[pair := c]> (CLMFile.contacts r)
    end in
  let oriented := <[(ai, bi, ao, bo) := gdists]> (CLMFile.orientedContacts r) in
  let oriented := <[(bi, ai, rr bo, rr ao) := gdists]> oriented in
  CLMFile.mk (CLMFile.Tigs r) (CLMFile.Tour r) (CLMFile.tigToIdx r) contacts oriented.

End ContactStore.

(** [s[:len(s)-1], s[len(s)-1]]: a contig name and its orientation byte.  On
    the empty string the index panics. *)
Fixpoint splitLast (s : string) : option (string * ascii) :=
  match s with
  | EmptyString => None
  | String ch EmptyString => Some (EmptyString, ch)
  | String ch rest =>
      match splitLast rest with
      | Some (init, l) => Some (String ch init, l)
      | None => None
      end
  end.

(** A row of the clm file once split into its fields: the two oriented contig
    names, the link count and the distances, as [strconv.Atoi] returns them. *)
Record ClmRow : Type := mkClmRow {
  atig : string;
  btig : string;
  row_nlinks : Z;
  dists : list Z
}.

Section ParseClm.
Context {GArray : Type}.

(** Declared outside [clm.go]: the histogram of the distances, their bounded
    harmonic mean and its two bounds. *)
Variable GoldenArray : list Z -> GArray.
Variable HmeanInt : list Z -> Z -> Z -> Z.
Variables GRLB GRUB : Z.

(** The body of the loop of [ParseClm] for one row.  A row that names a contig
    missing from [tigToIdx] is skipped. *)
Definition parseRow (r : CLMFile.t GArray) (row : ClmRow) : result (CLMFile.t GArray) :=
  match splitLast (atig row), splitLast (btig row) with
  | Some (at_, ao), Some (bt, bo) =>
      match CLMFile.tigToIdx r !! at_ with
      | None => Done r
      | Some ai =>
          match CLMFile.tigToIdx r !! bt with
          | None => Done r
          | Some bi =>
              let gdists := GoldenArray (dists row) in
              let meanDist := HmeanInt (dists row) GRLB GRUB in
              Done (storeRecord r ai bi ao bo (row_nlinks row) gdists meanDist)
          end
      end
  | _, _ => Panic
  end.

(** [ParseClm] over the rows of the file. *)
Definition ParseClm (r : CLMFile.t GArray) (rows : list ClmRow) : result (CLMFile.t GArray) :=
  foldM parseRow rows r.

End ParseClm.

(** ** clm.go: the pruning passes *)

(** Go's [int] has 64 bits; a sum wraps around. *)
Definition wrapInt (z : Z) : Z := ((z + 2 ^ 63) mod 2 ^ 64 - 2 ^ 63)%Z.

(** [math.Frexp]: [f = frac * 2^exp] with [frac] in [[1/2, 1)]; zeros,
    infinities and NaN are returned with the exponent 0. *)
Definition Frexp (f : float) : float * Z :=
  if (PrimFloat.eqb f 0 || PrimFloat.is_infinity f || PrimFloat.is_nan f)%bool
  then (f, 0%Z)
  else Z.frexp f.

(** [math.Log2] and [math.Log10] of Go's standard library.  Exact powers of
    two are answered without [math.Log]; [Log] stands for [math.Log] on the
    other arguments.  [1/Ln2] and [Ln2/Ln10] are the binary64 values of the
    constants. *)
Definition Log2 (Log : float -> float) (x : float) : float :=
  let '(frac, exp) := Frexp x in
  if PrimFloat.eqb frac 0.5 then Float64.ofInt (exp - 1)
  else (Log frac * 0x1.71547652b82fep+0 + Float64.ofInt exp)%float.

Definition Log10 (Log : float -> float) (x : float) : float :=
  (Log2 Log x * 0x1.34413509f79ffp-2)%float.

(** [r.Tigs[i].IsActive = false] *)
Definition deactivate (tig : TigF.t) : TigF.t :=
  TigF.mk (TigF.Idx tig) (TigF.Name tig) (TigF.Size tig) false.

(** [s[i]] for a Go [int] index: out of range is a panic. *)
Definition index {A : Type} (s : list A) (i : Z) : result A :=
  if decide (0 <= i)%Z then
    match s !! Z.to_nat i with
    | Some x => Done x
    | None => Panic
    end
  else Panic.

(** [s[i] = f(s[i])] *)
Definition update {A : Type} (s : list A) (i : Z) (f : A -> A) : result (list A) :=
  x ← index s i; Done (<[Z.to_nat i := f x]> s).

Section Pruning.
Context {GArray : Type}.

(** Declared outside [clm.go]: [math.Log], [OutlierCutoff], [MINSIZE] and
    [Tour.Evaluate]. *)
Variable Log : float -> float.
Variable OutlierCutoff : list float -> float * float.
Variable MINSIZE : Z.
Variable Evaluate : Tour.t -> float.

(** The first loop of [calculateDensities].  The sums do not depend on the
    order in which the contacts are enumerated. *)
Definition linkCounts (N : nat) (contacts : gmap Pair Contact.t) : result (list Z) :=
  foldM (fun densities pc =>
           let '((ai, bi), contact) := pc in
           densities ← update densities ai (fun d => wrapInt (d + Contact.nlinks contact));
           update densities bi (fun d => wrapInt (d + Contact.nlinks contact)))
        (map_to_list contacts) (replicate N 0%Z).

(** [calculateDensities] *)
Definition calculateDensities (r : CLMFile.t GArray) : result (list float) :=
  densities ← linkCounts (length (CLMFile.Tigs r)) (CLMFile.contacts r);
  Done (zip_with (fun d tig =>
                    Log10 Log (Float64.ofInt d
                               / Float64.ofInt (Z.min (TigF.Size tig) 500000))%float)
                 densities (CLMFile.Tigs r)).

(** The loop of [pruneByDensity] over [r.Tigs]. *)
Definition densityFilter (logdensities : list float) (lb : float) (Tigs : list TigF.t)
    : list TigF.t :=
  imap (fun i tig =>
          if Float64.lt (default 0%float (logdensities !! i)) lb
             && bool_decide (TigF.Size tig < MINSIZE * 10)%Z
          then deactivate tig else tig) Tigs.

(** [pruneByDensity] *)
Definition pruneByDensity (r : CLMFile.t GArray) : result (CLMFile.t GArray) :=
  logdensities ← calculateDensities r;
  let '(lb, ub) := OutlierCutoff logdensities in
  Done (CLMFile.mk (densityFilter logdensities lb (CLMFile.Tigs r)) (CLMFile.Tour r)
          (CLMFile.tigToIdx r) (CLMFile.contacts r) (CLMFile.orientedContacts r)).

(** [pruneBySize] *)
Definition pruneBySize (r : CLMFile.t GArray) : CLMFile.t GArray :=
  CLMFile.mk
    ((fun tig => if bool_decide (TigF.Size tig < MINSIZE)%Z then deactivate tig else tig)
       <$> CLMFile.Tigs r)
    (CLMFile.Tour r) (CLMFile.tigToIdx r) (CLMFile.contacts r) (CLMFile.orientedContacts r).

(** What the goroutine of [pruneTour] stores in its slot, given [tourScore]
    and the score of its candidate tour. *)
Definition recordLogDelta (tourScore newTourScore : float) : float :=
  let deltaScore := (tourScore - newTourScore)%float in
  if Float64.gt deltaScore 0x1.12e0be826d695p-30 (* 1e-9 *)
  then Log10 Log deltaScore
  else (-9.0)%float.

(** [newTour]: the clone of [tour] with the element at [i] deleted.  [Clone]
    is declared outside [clm.go]; it is taken to copy the slice [Tigs], so
    that the deletion does not touch [tour] or the candidates of the other
    positions. *)
Definition candidateTour (tour : Tour.t) (i : nat) : Tour.t :=
  Tour.mk (delete i (Tour.Tigs tour)) (Tour.M tour).

(** The value that the goroutine started for position [idx] writes to
    [log10ds[idx]]. *)
Definition slotValue (tour : Tour.t) (idx : nat) : float :=
  recordLogDelta (- Evaluate tour) (- Evaluate (candidateTour tour idx)).

(** [log10ds] once every goroutine of the round has written its slot. *)
Definition log10dsOf (tour : Tour.t) : list float :=
  imap (fun idx _ => slotValue tour idx) (Tour.Tigs tour).

(** The loop that deactivates the outliers of a round: [r.Tigs] and [invalid]. *)
Definition deactivateOutliers (log10ds : list float) (lb : float)
    (tourTigs : list Tig.t) (Tigs : list TigF.t) : result (list TigF.t * Z) :=
  foldM (fun st itig =>
           let '(Tigs, invalid) := st in
           let '(i, tig) := itig in
           if Float64.lt (default 0%float (log10ds !! i)) lb
           then Tigs ← update Tigs (Tig.Idx tig) deactivate;
                Done (Tigs, wrapInt (invalid + 1))
           else Done (Tigs, invalid))
        (imap pair tourTigs) (Tigs, 0%Z).

(** The loop that rebuilds the tour from the members still active. *)
Definition activeMembers (Tigs : list TigF.t) (tourTigs : list Tig.t) : result (list Tig.t) :=
  foldM (fun kept tig =>
           tigF ← index Tigs (Tig.Idx tig);
           Done (if TigF.IsActive tigF then kept ++ [tig] else kept))
        tourTigs [].

(** One round of [pruneTour]; the boolean tells whether the loop goes on. *)
Definition pruneRound (r : CLMFile.t GArray) : result (CLMFile.t GArray * bool) :=
  let tour := CLMFile.Tour r in
  let log10ds := log10dsOf tour in
  let '(lb, ub) := OutlierCutoff log10ds in
  '(Tigs, invalid) ← deactivateOutliers log10ds lb (Tour.Tigs tour) (CLMFile.Tigs r);
  if decide (invalid = 0%Z)
  then Done (CLMFile.mk Tigs tour (CLMFile.tigToIdx r) (CLMFile.contacts r)
               (CLMFile.orientedContacts r), false)
  else
    members ← activeMembers Tigs (Tour.Tigs tour);
    Done (CLMFile.mk Tigs (Tour.mk members (Tour.M tour)) (CLMFile.tigToIdx r)
            (CLMFile.contacts r) (CLMFile.orientedContacts r), true).

(** [pruneTour]: [for phase := 1; phase < 3; phase++], left early when a round
    deactivates nothing. *)
Definition pruneTour (r : CLMFile.t GArray) : result (CLMFile.t GArray) :=
  '(r, more) ← pruneRound r;
  if more : bool then '(r, _) ← pruneRound r; Done r else Done r.

End Pruning.

(** *** The parallel region of a round

    The loop of [pruneTour] starts one goroutine per tour position, after
    [wg.Add(1)]; each goroutine assigns its slot of [log10ds] and then runs
    the deferred [wg.Done()]; the main goroutine blocks in [wg.Wait()] until
    the counter is zero and then hands [log10ds] to [OutlierCutoff].  The
    goroutines and the main goroutine are interleaved by a scheduler. *)

(** Where a started goroutine stands. *)
Inductive GoPc : Type :=
| Running   (* before the assignment to [log10ds[idx]] *)
| Written   (* slot assigned, the deferred [wg.Done()] not yet run *)
| Exited.

(** Where the main goroutine stands. *)
Inductive MainPc : Type :=
| LoopTest (i : nat)   (* at the test [i < tour.Len()] *)
| Added (i : nat)      (* after [wg.Add(1)], at the [go] statement *)
| AtWait               (* at [wg.Wait()] *)
| AtCutoff             (* at [OutlierCutoff(log10ds)] *)
| AfterCutoff.

Record RoundState : Type := mkRoundState {
  mainPc : MainPc;
  wg : Z;                          (* the counter of the WaitGroup *)
  goroutines : list (nat * GoPc);  (* the argument [idx] of each goroutine, and where it stands *)
  log10ds : list float;
  observed : option (list float)   (* the vector [OutlierCutoff] received *)
}.

(** The scheduler picks the main goroutine or one of the started goroutines. *)
Inductive Action : Type :=
| MainStep
| GoStep (g : nat).

Section Round.
(** [tour.Len()] and the value computed for each position. *)
Variable n : nat.
Variable value : nat -> float.

(** [log10ds := make([]float64, tour.Len())] *)
Definition roundInit : RoundState :=
  mkRoundState (LoopTest 0) 0 [] (replicate n 0%float) None.

Definition roundStep (act : Action) (s : RoundState) : option RoundState :=
  match act with
  | MainStep =>
      match mainPc s with
      | LoopTest i =>
          if decide (i < n)
          then Some (mkRoundState (Added i) (wg s + 1) (goroutines s) (log10ds s) (observed s))
          else Some (mkRoundState AtWait (wg s) (goroutines s) (log10ds s) (observed s))
      | Added i =>
          Some (mkRoundState (LoopTest (S i)) (wg s) (goroutines s ++ [(i, Running)])
                  (log10ds s) (observed s))
      | AtWait =>
          if decide (wg s = 0)%Z
          then Some (mkRoundState AtCutoff (wg s) (goroutines s) (log10ds s) (observed s))
          else None
      | AtCutoff =>
          Some (mkRoundState AfterCutoff (wg s) (goroutines s) (log10ds s)
                  (Some (log10ds s)))
      | AfterCutoff => None
      end
  | GoStep g =>
      match goroutines s !! g with
      | Some (idx, Running) =>
          Some (mkRoundState (mainPc s) (wg s) (<[g := (idx, Written)]> (goroutines s))
                  (<[idx := value idx]> (log10ds s)) (observed s))
      | Some (idx, Written) =>
          Some (mkRoundState (mainPc s) (wg s - 1) (<[g := (idx, Exited)]> (goroutines s))
                  (log10ds s) (observed s))
      | _ => None
      end
  end.

(** A schedule run from a state; [None] when it picks a goroutine that cannot
    move. *)
Fixpoint roundRun (sched : list Action) (s : RoundState) : option RoundState :=
  match sched with
  | [] => Some s
  | act :: sched =>
      match roundStep act s with
      | Some s' => roundRun sched s'
      | None => None
      end
  end.

End Round.
(** ** clm.go: the ids file, the initial tour and the contact matrix *)

Section ParseIds.
Context {GArray : Type}.

(** [strconv.Atoi], whose error [ParseIds] drops. *)
Variable Atoi : string -> Z.

(** The body of the loop of [ParseIds] for one line, given as the words that
    [strings.Fields] splits it into; the state is the store and [idx].
    [words[0]] or [words[1]] is out of range on a line of fewer than two
    words.  [idx] counts the elements appended to [r.Tigs], so it stays within
    the range of [int]. *)
Definition parseIdsLine (st : CLMFile.t GArray * Z) (words : list string)
    : result (CLMFile.t GArray * Z) :=
  let '(r, idx) := st in
  match words with
  | tig :: sizeWord :: _ =>
      let size := Atoi sizeWord in
      Done (CLMFile.mk (CLMFile.Tigs r ++ [TigF.mk idx tig size true]) (CLMFile.Tour r)
              (<[tig := idx]> (CLMFile.tigToIdx r)) (CLMFile.contacts r)
              (CLMFile.orientedContacts r),
            (idx + 1)%Z)
  | _ => Panic
  end.

(** [ParseIds] over the lines of the ids file: [idx := 0] and the loop. *)
Definition ParseIds (r : CLMFile.t GArray) (lines : list (list string))
    : result (CLMFile.t GArray) :=
  '(r, _) ← foldM parseIdsLine lines (r, 0%Z); Done r.

End ParseIds.

(** The loop of [Activate] that fills the tour:
    [r.Tour.Tigs = append(r.Tour.Tigs, Tig{tig.Idx, tig.Size})] for every
    active contig. *)
Definition appendActive (Tigs : list TigF.t) (tourTigs : list Tig.t) : list Tig.t :=
  fold_left (fun tourTigs tig =>
               if TigF.IsActive tig
               then tourTigs ++ [Tig.mk (TigF.Idx tig) (TigF.Size tig)]
               else tourTigs)
            Tigs tourTigs.

(** [reportActive]: the two numbers it logs, [activeCounts] and [sumLength]. *)
Definition reportActive (Tigs : list TigF.t) : Z * Z :=
  fold_left (fun '(activeCounts, sumLength) tig =>
               if TigF.IsActive tig
               then (wrapInt (activeCounts + 1), wrapInt (sumLength + TigF.Size tig))
               else (activeCounts, sumLength))
            Tigs (0%Z, 0%Z).

(** [P[i][j] = v] on a slice of rows. *)
Definition setCell (P : list (list Z)) (i j v : Z) : result (list (list Z)) :=
  row ← index P i;
  row ← update row j (fun _ => v);
  Done (<[Z.to_nat i := row]> P).

(** The loop of [M] over the contacts in the order [entries], from the matrix
    [P] that [Make2DSlice(N, N)] returned ([Make2DSlice] is declared outside
    [clm.go]; its rows are taken not to share memory). *)
Definition fillM (P : list (list Z)) (entries : list (Pair * Contact.t))
    : result (list (list Z)) :=
  foldM (fun P pc =>
           let '((ai, bi), contact) := pc in
           P ← setCell P ai bi (Contact.nlinks contact);
           setCell P bi ai (Contact.nlinks contact))
        entries P.

(** ** build.go: the tour file and the AGP lines *)

(** [type OOLine struct] *)
Module OOLine.
Record t : Type := mk {
  id : string;
  componentID : string;
  componentSize : Z;
  strand : ascii
}.
End OOLine.

(** [type OO struct] *)
Module OO.
Record t : Type := mk {
  sizes : gmap string Z;
  entries : list OOLine.t
}.
End OO.

(** [Add] *)
Definition Add (r : OO.t) (scaffold ctg : string) (ctgsize : Z) (strand : ascii) : OO.t :=
  OO.mk (OO.sizes r) (OO.entries r ++ [OOLine.mk scaffold ctg ctgsize strand]).

(** [ao == '+' || ao == '-' || ao == '?'] *)
Definition isStrand (ao : ascii) : bool :=
  bool_decide (ao = "+"%char) || bool_decide (ao = "-"%char) || bool_decide (ao = "?"%char).

(** The body of the inner loop of [ParseTour] for one word of a tour line.  A
    contig missing from [sizes] is added with the size 0. *)
Definition parseTig (name : string) (r : OO.t) (tig : string) : result OO.t :=
  match splitLast tig with
  | None => Panic
  | Some (at_, ao) =>
      let '(tig, strand) := if isStrand ao then (at_, ao) else (tig, "?"%char) in
      Done (Add r name tig (default 0%Z (OO.sizes r !! tig)) strand)
  end.

(** The body of the outer loop for one line, given as the words that
    [strings.Fields] splits it into; the state is the object and [name].
    [words[0][0]] is out of range on a line without words. *)
Definition parseTourLine (st : OO.t * string) (words : list string)
    : result (OO.t * string) :=
  let '(r, name) := st in
  match words with
  | [] => Panic
  | EmptyString :: _ => Panic
  | String c rest :: _ =>
      if decide (c = ">"%char) then Done (r, rest)
      else r ← foldM (parseTig name) words r; Done (r, name)
  end.

(** [ParseTour] over the lines of the tour file. *)
Definition ParseTour (r : OO.t) (lines : list (list string)) : result OO.t :=
  '(r, _) ← foldM parseTourLine lines (r, EmptyString); Done r.

(** The arguments of the two [fmt.Fprintf] calls of [WriteAGP]: a gap line and
    a component line. *)
Inductive AGPLine : Type :=
| GapLine (object : string) (objectBeg objectEnd partNumber : Z)
    (componentType : ascii) (gapSize : Z) (gapType linkage evidence : string)
| ComponentLine (object : string) (objectBeg objectEnd partNumber : Z)
    (componentType : ascii) (componentID : string) (componentBeg componentEnd : Z)
    (strand : ascii).

(** The variables of [WriteAGP] that live across the iterations, and the lines
    written so far.  [objectEnd] and [componentType] are assigned before each
    use. *)
Record AGPState : Type := mkAGPState {
  prevObject : string;
  objectBeg : Z;
  partNumber : Z;
  components : Z;
  written : list AGPLine
}.

(** [gapSize := 100] *)
Definition gapSize : Z := 100.

(** The body of the loop of [WriteAGP] for one entry. *)
Definition writeEntry (st : AGPState) (line : OOLine.t) : AGPState :=
  let '(prevObject, objectBeg, partNumber) :=
    if decide (OOLine.id line <> prevObject st)
    then (OOLine.id line, 1%Z, 0%Z)
    else (prevObject st, objectBeg st, partNumber st) in
  let '(objectBeg, partNumber, out) :=
    if decide (partNumber > 0 /\ gapSize > 0)%Z
    then
      let componentType := if decide (gapSize = 100%Z) then "U"%char else "N"%char in
      let objectEnd := wrapInt (wrapInt (objectBeg + gapSize) - 1) in
      let partNumber := wrapInt (partNumber + 1) in
      (wrapInt (objectBeg + gapSize), partNumber,
       written st ++ [GapLine (OOLine.id line) objectBeg objectEnd partNumber
                        componentType gapSize "scaffold" "yes" "map"])
    else (objectBeg, partNumber, written st) in
  let objectEnd := wrapInt (wrapInt (objectBeg + OOLine.componentSize line) - 1) in
  let partNumber := wrapInt (partNumber + 1) in
  mkAGPState prevObject (wrapInt (objectBeg + OOLine.componentSize line)) partNumber
    (wrapInt (components st + 1))
    (out ++ [ComponentLine (OOLine.id line) objectBeg objectEnd partNumber "W"%char
               (OOLine.componentID line) 1 (OOLine.componentSize line) (OOLine.strand line)]).

(** [WriteAGP]: the lines written and the number of components logged. *)
Definition WriteAGP (entries : list OOLine.t) : list AGPLine * Z :=
  let st := fold_left writeEntry entries (mkAGPState EmptyString 1 0 0 []) in
  (written st, components st).
(** * Properties *)

Module Float64Facts.

(** *** The order of binary64, from the specification of the primitives *)

Ltac cmp_cases :=
  repeat match goal with
    | H : context [(?a ?= ?b)%Z] |- _ => destruct (Z.compare_spec a b)
    | H : context [PosDef.Pos.compare_cont Eq ?a ?b] |- _ =>
        change (PosDef.Pos.compare_cont Eq a b) with (Pos.compare a b) in H;
        destruct (Pos.compare_spec a b)
    | |- context [(?a ?= ?b)%Z] => destruct (Z.compare_spec a b)
    | |- context [PosDef.Pos.compare_cont Eq ?a ?b] =>
        change (PosDef.Pos.compare_cont Eq a b) with (Pos.compare a b);
        destruct (Pos.compare_spec a b)
    end.

Ltac sf_order :=
  unfold SFltb, SFleb, SFeqb;
  repeat match goal with x : spec_float |- _ => destruct x end;
  repeat match goal with s : bool |- _ => destruct s end;
  simpl; intros; try congruence;
  cmp_cases; simpl in *; subst; try congruence; try lia.

Lemma SFltb_trans (x y z : spec_float) :
  SFltb x y = true -> SFltb y z = true -> SFltb x z = true.
Proof. sf_order. Qed.

Lemma SFltb_leb_trans (x y z : spec_float) :
  SFltb x y = true -> SFleb y z = true -> SFltb x z = true.
Proof. sf_order. Qed.

Lemma SFleb_trans (x y z : spec_float) :
  SFleb x y = true -> SFleb y z = true -> SFleb x z = true.
Proof. sf_order. Qed.

Lemma SFltb_leb (x y : spec_float) : SFltb x y = true -> SFleb x y = true.
Proof. sf_order. Qed.

Lemma SFleb_total (x y : spec_float) :
  SFleb x x = true -> SFleb y y = true -> SFltb x y = false -> SFleb y x = true.
Proof. sf_order. Qed.

Lemma SFltb_refl_l (x y : spec_float) : SFltb x y = true -> SFleb x x = true.
Proof. sf_order. Qed.

Lemma SFltb_refl_r (x y : spec_float) : SFltb x y = true -> SFleb y y = true.
Proof. sf_order. Qed.

Lemma SFleb_refl_l (x y : spec_float) : SFleb x y = true -> SFleb x x = true.
Proof. sf_order. Qed.

Lemma SFltb_not_leb (x y : spec_float) : SFltb x y = true -> SFleb y x = false.
Proof. sf_order. Qed.

Ltac to_spec := unfold Float64.lt, Float64.gt, Float64.le, Float64.eq; rewrite ?FloatAxioms.ltb_spec, ?FloatAxioms.leb_spec, ?FloatAxioms.eqb_spec.

Lemma lt_trans x y z : Float64.lt x y = true -> Float64.lt y z = true -> Float64.lt x z = true.
Proof. to_spec. apply SFltb_trans. Qed.

Lemma lt_le_trans x y z : Float64.lt x y = true -> Float64.le y z = true -> Float64.lt x z = true.
Proof. to_spec. apply SFltb_leb_trans. Qed.

Lemma le_trans x y z : Float64.le x y = true -> Float64.le y z = true -> Float64.le x z = true.
Proof. to_spec. apply SFleb_trans. Qed.

Lemma lt_le x y : Float64.lt x y = true -> Float64.le x y = true.
Proof. to_spec. apply SFltb_leb. Qed.

(** On values that are not NaN the order is total. *)
Lemma le_total x y :
  Float64.le x x = true -> Float64.le y y = true -> Float64.lt x y = false -> Float64.le y x = true.
Proof. to_spec. apply SFleb_total. Qed.

Lemma lt_ordered_l x y : Float64.lt x y = true -> Float64.le x x = true.
Proof. to_spec. apply SFltb_refl_l. Qed.

Lemma lt_ordered_r x y : Float64.lt x y = true -> Float64.le y y = true.
Proof. to_spec. apply SFltb_refl_r. Qed.

Lemma le_ordered_l x y : Float64.le x y = true -> Float64.le x x = true.
Proof. to_spec. apply SFleb_refl_l. Qed.

Lemma lt_not_le x y : Float64.lt x y = true -> Float64.le y x = false.
Proof. to_spec. apply SFltb_not_leb. Qed.

Lemma SFltb_asym (x y : spec_float) : SFltb x y = true -> SFltb y x = false.
Proof. sf_order. Qed.

Lemma SFltb_eqb_refl_r (x y : spec_float) : SFltb x y = true -> SFeqb y y = true.
Proof. sf_order. Qed.

Lemma SFeqb_nan_ltb (x y : spec_float) : SFeqb x x = false -> SFltb y x = false.
Proof. sf_order. Qed.

Lemma lt_asym x y : Float64.lt x y = true -> Float64.lt y x = false.
Proof. to_spec. apply SFltb_asym. Qed.

Lemma lt_eq_refl_r x y : Float64.lt x y = true -> Float64.eq y y = true.
Proof. to_spec. apply SFltb_eqb_refl_r. Qed.

(** Nothing is below a NaN. *)
Lemma nan_not_above x y : Float64.eq x x = false -> Float64.lt y x = false.
Proof. to_spec. apply SFeqb_nan_ltb. Qed.

(** A weight above 1 is not the weight 0 of a sister edge. *)
Lemma gt_one_not_zero x : Float64.gt x 1 = true -> Float64.eq x 0 = false.
Proof.
  to_spec. generalize (Prim2SF x). intros y.
  replace (Prim2SF 1) with (S754_finite false 4503599627370496 (-52))
    by (vm_compute; reflexivity).
  replace (Prim2SF 0) with (S754_zero false) by (vm_compute; reflexivity).
  unfold SFltb, SFeqb.
  destruct y as [[]|[]| |[] m e]; simpl; congruence.
Qed.

End Float64Facts.

(** ** breakCycle *)

(** The invariant of the loop of [breakCycle] after the edges [seen]. *)
Definition weakestInv (seen : list Edge) (minI : nat) (minWeight : float) : Prop :=
  Float64.le minWeight Float64.MaxFloat64 = true /\
  (forall j e, seen !! j = Some e -> Float64.gt (weight e) 1 = true ->
     Float64.le minWeight (weight e) = true) /\
  ((minI = 0 /\ minWeight = Float64.MaxFloat64 /\
    forall j e, seen !! j = Some e -> breakable e = false) \/
   (exists e, seen !! minI = Some e /\ weight e = minWeight /\ breakable e = true /\
      forall j e', j < minI -> seen !! j = Some e' ->
        Float64.gt (weight e') 1 = true -> Float64.lt minWeight (weight e') = true)).

Lemma weakestInv_init : weakestInv [] 0 Float64.MaxFloat64.
Proof.
  split; [reflexivity|]. split; [intros j e Hj; by rewrite lookup_nil in Hj|].
  left. repeat split. intros j e Hj. by rewrite lookup_nil in Hj.
Qed.

Lemma weakestInv_step seen minI minWeight edge :
  weakestInv seen minI minWeight ->
  let c := Float64.gt (weight edge) 1 && Float64.lt (weight edge) minWeight in
  weakestInv (seen ++ [edge]) (if c then length seen else minI)
    (if c then weight edge else minWeight).
Proof.
  intros (Hmax & Hle & Hsel) c. subst c.
  destruct (Float64.gt (weight edge) 1) eqn:Hgt; simpl;
    [destruct (Float64.lt (weight edge) minWeight) eqn:Hlt|].
  - (* the edge becomes the minimum *)
    assert (Float64.lt (weight edge) Float64.MaxFloat64 = true) as HltM
      by eauto using Float64Facts.lt_le_trans.
    split; [by apply Float64Facts.lt_le|]. split.
    + intros j e Hj Hg. apply lookup_app_Some in Hj as [Hj|[_ Hj]].
      * apply Float64Facts.lt_le. eauto using Float64Facts.lt_le_trans.
      * apply list_lookup_singleton_Some in Hj as [_ <-].
        eauto using Float64Facts.lt_ordered_l.
    + right. exists edge. split; [|split; [done|split]].
      * rewrite lookup_app_r by lia. by rewrite Nat.sub_diag.
      * unfold breakable. by rewrite Hgt, HltM.
      * intros j e' Hlt' Hj Hg. rewrite lookup_app_l in Hj by done.
        eauto using Float64Facts.lt_le_trans.
  - (* weight above 1, not below the minimum *)
    split; [done|]. split.
    + intros j e Hj Hg. apply lookup_app_Some in Hj as [Hj|[_ Hj]]; [eauto|].
      apply list_lookup_singleton_Some in Hj as [_ <-].
      apply Float64Facts.le_total; [|eauto using Float64Facts.le_ordered_l|done].
      unfold Float64.gt in Hgt. eauto using Float64Facts.lt_ordered_r.
    + destruct Hsel as [(-> & -> & Hnone)|(e & He & Hw & Hb & Hfirst)]; [left|right].
      * repeat split. intros j e Hj.
        apply lookup_app_Some in Hj as [Hj|[_ Hj]]; [eauto|].
        apply list_lookup_singleton_Some in Hj as [_ <-].
        unfold breakable. by rewrite Hlt, andb_false_r.
      * exists e. repeat split; [by apply lookup_app_l_Some|done..|].
        intros j e' Hlt' Hj Hg. apply lookup_lt_Some in He.
        rewrite lookup_app_l in Hj by lia. eauto.
  - (* weight not above 1 *)
    split; [done|]. split.
    + intros j e Hj Hg. apply lookup_app_Some in Hj as [Hj|[_ Hj]]; [eauto|].
      apply list_lookup_singleton_Some in Hj as [_ <-]. congruence.
    + destruct Hsel as [(-> & -> & Hnone)|(e & He & Hw & Hb & Hfirst)]; [left|right].
      * repeat split. intros j e Hj.
        apply lookup_app_Some in Hj as [Hj|[_ Hj]]; [eauto|].
        apply list_lookup_singleton_Some in Hj as [_ <-].
        unfold breakable. by rewrite Hgt.
      * exists e. repeat split; [by apply lookup_app_l_Some|done..|].
        intros j e' Hlt' Hj Hg. apply lookup_lt_Some in He.
        rewrite lookup_app_l in Hj by lia. eauto.
Qed.

Lemma weakestFrom_inv path seen minI minWeight :
  weakestInv seen minI minWeight ->
  weakestInv (seen ++ path)
    (weakestFrom (length seen) minI minWeight path).1
    (weakestFrom (length seen) minI minWeight path).2.
Proof.
  revert seen minI minWeight.
  induction path as [|edge rest IH]; intros seen minI minWeight Hinv; simpl.
  - by rewrite app_nil_r.
  - pose proof (weakestInv_step _ _ _ edge Hinv) as Hstep. simpl in Hstep.
    replace (seen ++ edge :: rest) with ((seen ++ [edge]) ++ rest)
      by (by rewrite <- app_assoc).
    destruct (Float64.gt (weight edge) 1 && Float64.lt (weight edge) minWeight).
    + specialize (IH _ _ _ Hstep). by rewrite length_app, Nat.add_1_r in IH.
    + specialize (IH _ _ _ Hstep). by rewrite length_app, Nat.add_1_r in IH.
Qed.

Lemma weakest_inv path : weakestInv path (weakest path).1 (weakest path).2.
Proof. apply (weakestFrom_inv path [] 0 _ weakestInv_init). Qed.

Lemma weakest_in_range path : path <> [] -> (weakest path).1 < length path.
Proof.
  intros Hne. destruct (weakest_inv path) as (_ & _ & [(-> & _)|(e & He & _)]).
  - destruct path; [done|simpl; lia].
  - by apply lookup_lt_Some in He.
Qed.

(** Whatever the path, the selected index is that of an edge, so exactly that
    edge is dropped. *)
Lemma breakCycle_eq (path : list Edge) :
  path <> [] ->
  breakCycle path =
    Done (drop (S (weakest path).1) path ++ take (weakest path).1 path) /\
  length (drop (S (weakest path).1) path ++ take (weakest path).1 path)
    = length path - 1.
Proof.
  intros Hne. pose proof (weakest_in_range path Hne) as Hlt.
  unfold breakCycle. rewrite decide_True by lia.
  rewrite Nat.add_1_r. split; [done|].
  rewrite length_app, length_drop, length_take. lia.
Qed.

(** C10.  For every non-empty edge sequence, [breakCycle] returns the sequence
    without exactly one of its edges, so one edge shorter; when no edge has a
    weight above 1 the edge removed is the one at index 0, whatever its
    weight. *)
Theorem breakCycle_removes_exactly_one (path : list Edge) :
  path <> [] ->
  exists i e, path !! i = Some e /\
    breakCycle path = Done (drop (S i) path ++ take i path) /\
    length (drop (S i) path ++ take i path) = length path - 1 /\
    ((forall e', e' ∈ path -> Float64.gt (weight e') 1 = false) -> i = 0).
Proof.
  intros Hne. destruct (breakCycle_eq path Hne) as [Heq Hlen].
  pose proof (weakest_in_range path Hne) as Hlt.
  destruct (lookup_lt_is_Some_2 _ _ Hlt) as [e He].
  exists (weakest path).1, e. repeat split; [done..|].
  intros Hnone.
  destruct (weakest_inv path) as (_ & _ & [(-> & _)|(e' & He' & _ & Hb & _)]); [done|].
  unfold breakable in Hb. rewrite (Hnone e') in Hb; [done|].
  by eapply list_elem_of_lookup_2.
Qed.

(** The edge that [breakCycle] selects when some edge can be selected. *)
Lemma breakCycle_weakest_edge (path : list Edge) :
  (exists e0, e0 ∈ path /\ breakable e0 = true) ->
  exists i e, path !! i = Some e /\
    breakCycle path = Done (drop (S i) path ++ take i path) /\
    Float64.gt (weight e) 1 = true /\
    (forall j e', path !! j = Some e' -> Float64.gt (weight e') 1 = true ->
       Float64.le (weight e) (weight e') = true) /\
    (forall j e', j < i -> path !! j = Some e' -> Float64.gt (weight e') 1 = true ->
       Float64.lt (weight e) (weight e') = true).
Proof.
  intros (e0 & Hin & Hb0).
  assert (path <> []) as Hne by (intros ->; by apply elem_of_nil in Hin).
  destruct (breakCycle_eq path Hne) as [Heq _].
  destruct (weakest_inv path) as (_ & Hle & [(_ & _ & Hnone)|(e & He & Hw & Hb & Hfirst)]).
  - apply list_elem_of_lookup_1 in Hin as [j Hj]. rewrite (Hnone j e0 Hj) in Hb0. done.
  - exists (weakest path).1, e. rewrite Hw.
    repeat split; [done..| |done|done].
    unfold breakable in Hb. apply andb_true_iff in Hb as [Hb _]. by rewrite <- Hw.
Qed.



(** *** Concrete ends, graphs and an enumeration order

    Two contigs: one with the ends 1 and 2, one with the ends 3 and 4. *)
Definition sisterOf (p : positive) : Node :=
  match p with
  | 1%positive => Some 2%positive
  | 2%positive => Some 1%positive
  | 3%positive => Some 4%positive
  | 4%positive => Some 3%positive
  | _ => None
  end.

(** The enumeration order of [map_to_list]. *)
Definition listRange : ranger := fun V m => map_to_list m.

Lemma listRange_ok : ranger_ok listRange.
Proof. intros V m. reflexivity. Qed.

(** A path of two sister edges and two linkage edges of weights 3 and 2. *)
Definition pathWeak2 : list Edge :=
  [ mkEdge (Some 1%positive) (Some 2%positive) 0;
    mkEdge (Some 2%positive) (Some 3%positive) 3;
    mkEdge (Some 3%positive) (Some 4%positive) 0;
    mkEdge (Some 4%positive) (Some 1%positive) 2 ].

Lemma breakCycle_removes_exactly_one_witness :
  exists i e, pathWeak2 !! i = Some e /\
    breakCycle pathWeak2 = Done (drop (S i) pathWeak2 ++ take i pathWeak2) /\
    length (drop (S i) pathWeak2 ++ take i pathWeak2) = length pathWeak2 - 1 /\
    ((forall e', e' ∈ pathWeak2 -> Float64.gt (weight e') 1 = false) -> i = 0).
Proof. apply (breakCycle_removes_exactly_one pathWeak2). discriminate. Defined.


Example breakCycle_pathWeak2 :
  breakCycle pathWeak2 =
    Done [ mkEdge (Some 1%positive) (Some 2%positive) 0;
           mkEdge (Some 2%positive) (Some 3%positive) 3;
           mkEdge (Some 3%positive) (Some 4%positive) 0 ].
Proof. reflexivity. Qed.

(** A symmetric linkage graph: the two contigs link into a ring by two links
    of weight [2^1000], and by two links of weight [2^-1000]. *)
Definition ringSource : Graph :=
  {[ Some 1%positive := {[ Some 4%positive := 0x1p+1000%float; Some 3%positive := 0x1p-1000%float ]};
     Some 2%positive := {[ Some 3%positive := 0x1p+1000%float; Some 4%positive := 0x1p-1000%float ]};
     Some 3%positive := {[ Some 2%positive := 0x1p+1000%float; Some 1%positive := 0x1p-1000%float ]};
     Some 4%positive := {[ Some 1%positive := 0x1p+1000%float; Some 2%positive := 0x1p-1000%float ]} ]}.

(** Its confidence graph: the denominator of the heavy links is [2^-1000],
    the quotient overflows and their confidence is [+Inf]. *)
Definition ringInf : Graph :=
  {[ Some 1%positive := {[ Some 4%positive := infinity ]};
     Some 2%positive := {[ Some 3%positive := infinity ]};
     Some 3%positive := {[ Some 2%positive := infinity ]};
     Some 4%positive := {[ Some 1%positive := infinity ]} ]}.


(** ** dfs *)

(** The walk only ever appends to the path it is given. *)
Lemma dfs_extends (fuel : nat) (range : ranger) (sister : positive -> Node) (G : Graph)
    (a : Node) (path : list Edge) (visited : gset Node) (visitSister : bool)
    (p' : list Edge) (cyc : bool) (v' : gset Node) :
  dfs fuel range sister G a path visited visitSister = Done (p', cyc, v') ->
  exists tail, p' = path ++ tail.
Proof.
  revert a path visited visitSister.
  induction fuel as [|fuel IH]; intros a path visited visitSister; simpl; [done|].
  destruct (decide (a ∈ visited)).
  { intros [= <- _ _]. exists []. by rewrite app_nil_r. }
  destruct visitSister.
  - destruct a as [p|]; [|done].
    intros Hd. apply IH in Hd as [tail ->]. rewrite <- app_assoc. eauto.
  - destruct (G !! a) as [nb|].
    + intros Hd. apply IH in Hd as [tail ->]. rewrite <- app_assoc. eauto.
    + intros [= <- _ _]. exists []. by rewrite app_nil_r.
Qed.

(** One non-sister step from an unvisited end with neighbours. *)
Lemma dfs_step_neighbour (fuel : nat) (range : ranger) (sister : positive -> Node) (G : Graph)
    (a : Node) (path : list Edge) (visited : gset Node)
    (nb : gmap Node float) (b : Node) (w : float) (rest : list (Node * float)) :
  a ∉ visited -> G !! a = Some nb -> range float nb = (b, w) :: rest ->
  dfs (S fuel) range sister G a path visited false =
    dfs fuel range sister G b (path ++ [mkEdge a b w]) ({[a]} ∪ visited) true.
Proof.
  intros Hnv HG Hr. simpl. rewrite decide_False by done. by rewrite HG, Hr.
Qed.


(** *** The cycles that the upstream walk finds

    In a graph in which every end with an entry has a neighbour and every
    weight lies strictly between 1 and [math.MaxFloat64], as in the confidence
    graph of finite weights, a cycle found from an end whose sister is another
    end, not yet visited, holds an edge that [breakCycle] can select. *)
Definition breakableGraph (G : Graph) : Prop :=
  forall (a : Node) (nb : gmap Node float), G !! a = Some nb ->
    nb <> ∅ /\
    forall (b : Node) (w : float), nb !! b = Some w ->
      breakable (mkEdge a b w) = true.

Lemma dfs_cycle_has_breakable_edge (fuel : nat) (range : ranger)
    (sister : positive -> Node) (G : Graph) (p : positive) (visited : gset Node)
    (path : list Edge) (v' : gset Node) :
  ranger_ok range -> breakableGraph G ->
  Some p ∉ visited -> sister p <> Some p -> sister p ∉ visited ->
  dfs fuel range sister G (Some p) [] visited true = Done (path, true, v') ->
  exists e, e ∈ path /\ breakable e = true.
Proof.
  intros Hok HG Hp Hsis Hsisv Hrun.
  destruct fuel as [|[|fuel]]; [done| |].
  { simpl in Hrun. by rewrite decide_False in Hrun by done. }
  cbn [dfs] in Hrun. rewrite decide_False in Hrun by done.
  rewrite decide_False in Hrun
    by (apply not_elem_of_union; split; [by apply not_elem_of_singleton|done]).
  destruct (G !! sister p) as [nb|] eqn:Hnb; [|done].
  destruct (HG _ _ Hnb) as [Hne Hw].
  destruct (range float nb) as [|[b w] rest] eqn:Hr.
  { exfalso. apply Hne. apply map_to_list_empty_iff.
    pose proof (Hok float nb) as Hperm. rewrite Hr in Hperm.
    by apply Permutation.Permutation_nil in Hperm. }
  assert (nb !! b = Some w) as Hbw.
  { apply elem_of_map_to_list. rewrite <- (Hok float nb), Hr. apply list_elem_of_here. }
  apply dfs_extends in Hrun as [tail ->].
  exists (mkEdge (sister p) b w). split; [|by apply Hw].
  rewrite app_nil_l, <- app_assoc. simpl.
  apply list_elem_of_further, list_elem_of_here.
Qed.

(** So [breakCycle] removes an edge of weight above 1 from such a cycle, never
    a sister edge. *)
Lemma breakCycle_dfs_cycle (fuel : nat) (range : ranger)
    (sister : positive -> Node) (G : Graph) (p : positive) (visited : gset Node)
    (path : list Edge) (v' : gset Node) :
  ranger_ok range -> breakableGraph G ->
  Some p ∉ visited -> sister p <> Some p -> sister p ∉ visited ->
  dfs fuel range sister G (Some p) [] visited true = Done (path, true, v') ->
  exists i e, path !! i = Some e /\
    breakCycle path = Done (drop (S i) path ++ take i path) /\
    Float64.gt (weight e) 1 = true /\ isSister e = false.
Proof.
  intros Hok HG Hp Hsis Hsisv Hrun.
  destruct (breakCycle_weakest_edge path) as (i & e & He & Hbreak & Hgt & _).
  { by eapply dfs_cycle_has_breakable_edge. }
  exists i, e. repeat split; [done..|].
  unfold isSister. by apply Float64Facts.gt_one_not_zero.
Qed.

(** A linkage graph in which end 2 has two links of weight 4 that the ends 3
    and 4 do not hold in their own rows. *)
Definition forkSource : Graph :=
  {[ Some 1%positive := {[ Some 3%positive := 1%float; Some 4%positive := 2%float ]};
     Some 2%positive := {[ Some 3%positive := 4%float; Some 4%positive := 4%float ]};
     Some 3%positive := {[ Some 1%positive := 1%float ]};
     Some 4%positive := {[ Some 1%positive := 2%float ]} ]}.

(** Its confidence graph: end 2 keeps both edges, with confidence 4 to end 3
    and confidence 2 to end 4; [listRange] enumerates end 4 first. *)
Definition forkGraph : Graph :=
  {[ Some 1%positive := {[ Some 4%positive := 2%float ]};
     Some 2%positive := {[ Some 3%positive := 4%float; Some 4%positive := 2%float ]};
     Some 4%positive := {[ Some 1%positive := 2%float ]} ]}.

Example makeConfidenceGraph_forkSource :
  exists G', makeConfidenceGraph listRange forkSource = Done (G', forkGraph).
Proof. eexists. vm_compute. reflexivity. Qed.



(** *** The walk returns

    Every call of [dfs] that does not return at once marks an end that was not
    marked, and the ends it can reach are the start, the neighbours recorded
    in [G], [nil], and their sisters.  So the recursion is bounded, and the
    fuel of the model is enough as soon as it exceeds the number of those
    ends. *)

(** The ends [dfs] can be called on with [visitSister = true]. *)
Definition entryEnds (G : Graph) (a0 : Node) : gset Node :=
  {[ a0; None ]} ∪ ⋃ (dom <$> (map_to_list G).*2).

(** The ends [dfs] can be called on. *)
Definition reachEnds (sister : positive -> Node) (G : Graph) (a0 : Node) : gset Node :=
  entryEnds G a0 ∪
  set_map (fun a : Node => match a with Some p => sister p | None => None end)
    (entryEnds G a0).

Lemma entryEnds_neighbour (G : Graph) (a0 a b : Node) (nb : gmap Node float) :
  G !! a = Some nb -> b ∈ dom nb -> b ∈ entryEnds G a0.
Proof.
  intros HG Hb. unfold entryEnds. apply elem_of_union. right.
  apply elem_of_union_list. exists (dom nb). split; [|done].
  apply list_elem_of_fmap. exists nb. split; [done|].
  apply list_elem_of_fmap. exists (a, nb). split; [done|].
  by apply elem_of_map_to_list.
Qed.

Lemma entryEnds_first (range : ranger) (G : Graph) (a0 a : Node) (nb : gmap Node float) :
  ranger_ok range -> G !! a = Some nb ->
  (match range float nb with [] => (None, 0%float) | bw :: _ => bw end).1 ∈ entryEnds G a0.
Proof.
  intros Hok HG. destruct (range float nb) as [|[b w] rest] eqn:Hr; simpl.
  - unfold entryEnds. apply elem_of_union. left. apply elem_of_union. right.
    by apply elem_of_singleton.
  - apply (entryEnds_neighbour G a0 a b nb HG). apply elem_of_dom. exists w.
    apply elem_of_map_to_list. rewrite <- (Hok float nb), Hr. apply list_elem_of_here.
Qed.

Lemma reachEnds_sister (sister : positive -> Node) (G : Graph) (a0 : Node) (p : positive) :
  Some p ∈ entryEnds G a0 -> sister p ∈ reachEnds sister G a0.
Proof.
  intros Hp. unfold reachEnds. apply elem_of_union. right.
  apply elem_of_map. by exists (Some p).
Qed.

Lemma dfs_enough_fuel (range : ranger) (sister : positive -> Node) (G : Graph) (a0 : Node) :
  ranger_ok range ->
  forall (fuel : nat) (a : Node) (path : list Edge) (visited : gset Node) (visitSister : bool),
  (if visitSister then a ∈ entryEnds G a0 else a ∈ reachEnds sister G a0) ->
  size (reachEnds sister G a0 ∖ visited) < fuel ->
  dfs fuel range sister G a path visited visitSister <> OutOfFuel.
Proof.
  intros Hok. induction fuel as [|fuel IH]; intros a path visited visitSister Ha Hsize; [lia|].
  simpl. destruct (decide (a ∈ visited)) as [|Hnv]; [done|].
  assert (a ∈ reachEnds sister G a0) as Hreach.
  { destruct visitSister; [|done]. unfold reachEnds. apply elem_of_union. by left. }
  assert (size (reachEnds sister G a0 ∖ ({[a]} ∪ visited)) < fuel) as Hless.
  { assert (reachEnds sister G a0 ∖ ({[a]} ∪ visited) ⊂ reachEnds sister G a0 ∖ visited)
      as Hsub.
    { split.
      - intros x. rewrite !elem_of_difference, elem_of_union. tauto.
      - intros Hsup. specialize (Hsup a).
        rewrite !elem_of_difference, elem_of_union, elem_of_singleton in Hsup. tauto. }
    apply subset_size in Hsub. lia. }
  destruct visitSister.
  - destruct a as [p|]; [|done]. apply IH; [|done]. by apply reachEnds_sister.
  - destruct (G !! a) as [nb|] eqn:HG; [|done].
    apply IH; [|done]. by eapply entryEnds_first.
Qed.

(** More fuel does not change a result. *)
Lemma dfs_fuel_mono (range : ranger) (sister : positive -> Node) (G : Graph) (fuel : nat) :
  forall (a : Node) (path : list Edge) (visited : gset Node) (visitSister : bool),
  dfs fuel range sister G a path visited visitSister <> OutOfFuel ->
  dfs (S fuel) range sister G a path visited visitSister
    = dfs fuel range sister G a path visited visitSister.
Proof.
  induction fuel as [|fuel IH]; intros a path visited visitSister Hrun; [done|].
  revert Hrun. cbn [dfs]. destruct (decide (a ∈ visited)); [done|].
  destruct visitSister.
  - destruct a as [p|]; [|done]. apply IH.
  - destruct (G !! a) as [nb|]; [|done]. apply IH.
Qed.

(** [dfs] returns or panics: from the start of a walk, with fuel above the
    number of ends that can be reached, the model does not run out of fuel. *)
Lemma dfs_returns (range : ranger) (sister : positive -> Node) (G : Graph)
    (a : Node) (path : list Edge) (visited : gset Node) (visitSister : bool) :
  ranger_ok range ->
  dfs (S (size (reachEnds sister G a))) range sister G a path visited visitSister
    <> OutOfFuel.
Proof.
  intros Hok. apply (dfs_enough_fuel range sister G a Hok).
  - assert (a ∈ entryEnds G a) as Hentry.
    { unfold entryEnds. apply elem_of_union. left. apply elem_of_union. left.
      by apply elem_of_singleton. }
    destruct visitSister; [done|]. unfold reachEnds. apply elem_of_union. by left.
  - assert (size (reachEnds sister G a ∖ visited) <= size (reachEnds sister G a)).
    { apply subseteq_size. intros x. rewrite elem_of_difference. tauto. }
    lia.
Qed.

(** ** makeConfidenceGraph *)

(** ** Enumeration *)

Lemma range_lookup (range : ranger) (V : Type) (m : gmap Node V) (k : Node) (v : V) :
  ranger_ok range -> (k, v) ∈ range V m <-> m !! k = Some v.
Proof. intros Hok. rewrite (Hok V m). apply elem_of_map_to_list. Qed.

Lemma range_NoDup (range : ranger) (V : Type) (m : gmap Node V) :
  ranger_ok range -> NoDup (range V m).*1.
Proof. intros Hok. rewrite (Hok V m). apply NoDup_fst_map_to_list. Qed.

Lemma range_keys (range : ranger) (V : Type) (m : gmap Node V) (k : Node) :
  ranger_ok range -> k ∈ (range V m).*1 <-> is_Some (m !! k).
Proof.
  intros Hok. rewrite list_elem_of_fmap. split.
  - intros ([k' v] & -> & Hin). apply (range_lookup _ _ _ _ _ Hok) in Hin. eauto.
  - intros [v Hv]. exists (k, v). split; [done|]. by apply range_lookup.
Qed.

Lemma foldM_cons {A S : Type} (f : S -> A -> result S) (x : A) (l : list A) (s : S) :
  foldM f (x :: l) s = f s x ≫= foldM f l.
Proof. reflexivity. Qed.

Lemma bind_Done {A B : Type} (k : A -> result B) (x : A) : Done x ≫= k = k x.
Proof. reflexivity. Qed.

Section ConfidenceFacts.
Context {F : Type} `{Num F}.

(** The confidence denominator of the edge [(a, b)]. *)
Definition denominator (tl : gmap Node (list F)) (a b : Node) : result F :=
  getSecondLargest (default [] (tl !! a)) (default [] (tl !! b)).

(** ** First pass *)

Lemma insert_fold_notin {V : Type} (f : gmap Node F -> V) (l : list (Node * gmap Node F))
    (m0 : gmap Node V) (a : Node) :
  a ∉ l.*1 ->
  fold_left (fun tl anb => <[anb.1 := f anb.2]> tl) l m0 !! a = m0 !! a.
Proof.
  revert m0. induction l as [|[a' nb'] l IH]; intros m0 Hnotin; simpl; [done|].
  rewrite fmap_cons, not_elem_of_cons in Hnotin. destruct Hnotin as [Hne Hnotin].
  rewrite IH by done. by rewrite lookup_insert_ne.
Qed.

Lemma insert_fold_in {V : Type} (f : gmap Node F -> V) (l : list (Node * gmap Node F))
    (m0 : gmap Node V) (a : Node) (nb : gmap Node F) :
  NoDup l.*1 -> (a, nb) ∈ l ->
  fold_left (fun tl anb => <[anb.1 := f anb.2]> tl) l m0 !! a = Some (f nb).
Proof.
  revert m0. induction l as [|[a' nb'] l IH]; intros m0 Hnd Hin; simpl.
  - by apply elem_of_nil in Hin.
  - rewrite fmap_cons in Hnd. apply NoDup_cons in Hnd as [Hnotin Hnd].
    apply elem_of_cons in Hin as [[= <- <-]|Hin].
    + rewrite insert_fold_notin by done. by rewrite lookup_insert_eq.
    + by apply IH.
Qed.

Lemma twoLargest_lookup (range : ranger) (G : gmap Node (gmap Node F)) (a : Node) :
  ranger_ok range ->
  twoLargest range G !! a = (fun nb => twoLargestOf ((range F nb).*2)) <$> G !! a.
Proof.
  intros Hok. unfold twoLargest. destruct (G !! a) as [nb|] eqn:HG; simpl.
  - apply (insert_fold_in (fun nb => twoLargestOf ((range F nb).*2))).
    + by apply range_NoDup.
    + by apply range_lookup.
  - rewrite (insert_fold_notin (fun nb => twoLargestOf ((range F nb).*2))); [done|].
    rewrite range_keys by done. rewrite HG. by intros [? ?].
Qed.

Lemma twoLargestOf_length (scores : list F) : length (twoLargestOf scores) = 2.
Proof.
  unfold twoLargestOf. by destruct (fold_left twoLargestStep scores (num_zero, num_zero)).
Qed.

(** ** sort.Float64s *)

Lemma insertSorted_length (x : F) (sorted : list F) :
  length (insertSorted x sorted) = S (length sorted).
Proof.
  induction sorted as [|y rest IH]; simpl; [done|].
  destruct (less x y); simpl; by rewrite ?IH.
Qed.

Lemma insertSorted_perm (x : F) (sorted : list F) :
  insertSorted x sorted ≡ₚ x :: sorted.
Proof.
  induction sorted as [|y rest IH]; simpl; [done|].
  destruct (less x y); [|done]. rewrite IH. apply Permutation_swap.
Qed.

Lemma insertion_fold_length (l acc : list F) :
  length (fold_left (fun sorted x => insertSorted x sorted) l acc) = length l + length acc.
Proof.
  revert acc. induction l as [|x l IH]; intros acc; simpl; [done|].
  rewrite IH, insertSorted_length. lia.
Qed.

Lemma insertion_fold_perm (l acc : list F) :
  fold_left (fun sorted x => insertSorted x sorted) l acc ≡ₚ l ++ acc.
Proof.
  revert acc. induction l as [|x l IH]; intros acc; simpl; [done|].
  rewrite IH, insertSorted_perm. by rewrite Permutation_middle.
Qed.

Lemma sortFloat64s_length (l : list F) : length (sortFloat64s l) = length l.
Proof. unfold sortFloat64s. rewrite length_reverse, insertion_fold_length. simpl. lia. Qed.

Lemma sortFloat64s_perm (l : list F) : sortFloat64s l ≡ₚ l.
Proof.
  unfold sortFloat64s. rewrite reverse_Permutation, insertion_fold_perm. by rewrite app_nil_r.
Qed.

(** On two 2-item slices [getSecondLargest] does not panic. *)
Lemma getSecondLargest_total (a b : list F) :
  length a = 2 -> length b = 2 ->
  exists A0 A1 A2 A3,
    sortFloat64s (a ++ b) = [A0; A1; A2; A3] /\
    getSecondLargest a b =
      Done (if num_eq A3 A2 && num_gt A1 num_zero then A1 else A2).
Proof.
  intros Ha Hb. unfold getSecondLargest.
  pose proof (sortFloat64s_length (a ++ b)) as Hlen.
  rewrite length_app, Ha, Hb in Hlen.
  destruct (sortFloat64s (a ++ b)) as [|A0 [|A1 [|A2 [|A3 [|? ?]]]]]; simplify_eq/=.
  by exists A0, A1, A2, A3.
Qed.


(** ** Second pass *)

(** The update of [confidenceGraph] in the loop body. *)
Definition setEdge (C : gmap Node (gmap Node F)) (a b : Node) (q : F)
    : gmap Node (gmap Node F) :=
  match C !! a with
  | Some row => <[a := <[b := q]> row]> C
  | None => <[a := {[b := q]}]> C
  end.

Lemma setEdge_other_row (C : gmap Node (gmap Node F)) (a a' b : Node) (q : F) :
  a' <> a -> setEdge C a b q !! a' = C !! a'.
Proof. intros Hne. unfold setEdge. destruct (C !! a); by rewrite lookup_insert_ne. Qed.

Lemma edgeWeight_setEdge (C : gmap Node (gmap Node F)) (a b b' : Node) (q : F) :
  edgeWeight (setEdge C a b q) a b' = if decide (b' = b) then Some q else edgeWeight C a b'.
Proof.
  unfold setEdge, edgeWeight. destruct (C !! a) as [row|] eqn:HC;
    rewrite lookup_insert_eq; simpl; case_decide; subst;
    rewrite ?lookup_insert_eq, ?lookup_insert_ne, ?lookup_singleton_eq,
      ?lookup_singleton_ne by done; done.
Qed.

Lemma confidenceStep_eq (tl : gmap Node (list F)) (a b : Node)
    (G C : gmap Node (gmap Node F)) (nb : gmap Node F) (d : F) :
  denominator tl a b = Done d -> G !! a = Some nb ->
  confidenceStep tl a (G, C) b =
    Done (<[a := <[b := num_div (default num_zero (nb !! b)) d]> nb]> G,
          if num_gt (num_div (default num_zero (nb !! b)) d) num_one
          then setEdge C a b (num_div (default num_zero (nb !! b)) d) else C).
Proof.
  intros Hd HG. unfold confidenceStep, denominator in *. rewrite Hd. simpl. rewrite HG.
  destruct (num_gt _ num_one); [|done]. unfold setEdge. by destruct (C !! a).
Qed.

(** What the second pass leaves at [confidenceGraph[a][b']] once the
    neighbours [bs] of [a], whose weights are in [nb], have been visited. *)
Definition confRow (tl : gmap Node (list F)) (a : Node) (nb : gmap Node F)
    (bs : list Node) (C : gmap Node (gmap Node F)) (b' : Node) : option F :=
  if decide (b' ∈ bs) then
    match denominator tl a b' with
    | Done d =>
        if num_gt (num_div (default num_zero (nb !! b')) d) num_one
        then Some (num_div (default num_zero (nb !! b')) d)
        else edgeWeight C a b'
    | _ => edgeWeight C a b'
    end
  else edgeWeight C a b'.

Lemma rowPass_spec (tl : gmap Node (list F)) (a : Node) (bs : list Node) :
  forall (G C : gmap Node (gmap Node F)) (nb : gmap Node F),
  NoDup bs -> G !! a = Some nb ->
  (forall b, b ∈ bs -> exists d, denominator tl a b = Done d) ->
  exists G' C' nb',
    foldM (confidenceStep tl a) bs (G, C) = Done (G', C') /\
    G' = <[a := nb']> G /\
    (forall b', b' ∉ bs -> nb' !! b' = nb !! b') /\
    (forall a', a' <> a -> C' !! a' = C !! a') /\
    (forall b', edgeWeight C' a b' = confRow tl a nb bs C b').
Proof.
  induction bs as [|b bs IH]; intros G C nb Hnd HG Hden.
  - exists G, C, nb. repeat split; [by rewrite insert_id|done..].
  - apply NoDup_cons in Hnd as [Hb Hnd].
    destruct (Hden b) as [d Hd]; [apply list_elem_of_here|].
    rewrite foldM_cons, (confidenceStep_eq _ _ _ _ _ _ _ Hd HG), bind_Done.
    set (q := num_div (default num_zero (nb !! b)) d).
    set (C1 := if num_gt q num_one then setEdge C a b q else C).
    destruct (IH (<[a := <[b := q]> nb]> G) C1 (<[b := q]> nb) Hnd) as
      (G' & C' & nb' & Hrun & HG' & Hnb' & Hrows & Hrow).
    { by rewrite lookup_insert_eq. }
    { intros b' Hb'. apply Hden. by apply list_elem_of_further. }
    assert (forall a', a' <> a -> C1 !! a' = C !! a') as HC1rows.
    { intros a' Hne. unfold C1. destruct (num_gt q num_one); [|done].
      by apply setEdge_other_row. }
    assert (forall b', edgeWeight C1 a b' =
              if decide (b' = b) then (if num_gt q num_one then Some q else edgeWeight C a b)
              else edgeWeight C a b') as HC1row.
    { intros b'. unfold C1. destruct (num_gt q num_one).
      - rewrite edgeWeight_setEdge. by case_decide.
      - case_decide; by subst. }
    exists G', C', nb'. split; [done|]. split; [by rewrite HG', insert_insert_eq|].
    split; [|split].
    + intros b' Hb'. apply not_elem_of_cons in Hb' as [Hne Hb'].
      rewrite Hnb' by done. by rewrite lookup_insert_ne.
    + intros a' Hne. rewrite Hrows by done. by apply HC1rows.
    + intros b'. rewrite Hrow. unfold confRow.
      destruct (decide (b' = b)) as [->|Hne].
      * rewrite decide_False by done. rewrite decide_True by apply list_elem_of_here.
        rewrite Hd. rewrite HC1row. rewrite decide_True by done. done.
      * assert (edgeWeight C1 a b' = edgeWeight C a b') as ->.
        { rewrite HC1row. by rewrite decide_False. }
        rewrite lookup_insert_ne by done.
        destruct (decide (b' ∈ bs)) as [Hin|Hnin].
        -- rewrite decide_True by (by apply list_elem_of_further). done.
        -- rewrite decide_False; [done|]. by apply not_elem_of_cons.
Qed.

Lemma confRow_ext (tl : gmap Node (list F)) (a : Node) (nb : gmap Node F)
    (bs : list Node) (C C1 : gmap Node (gmap Node F)) (b' : Node) :
  C1 !! a = C !! a -> confRow tl a nb bs C1 b' = confRow tl a nb bs C b'.
Proof. intros Heq. unfold confRow, edgeWeight. by rewrite Heq. Qed.

Lemma pass2_spec (tl : gmap Node (list F)) (range : ranger) (L : list (Node * gmap Node F)) :
  ranger_ok range ->
  forall (G C : gmap Node (gmap Node F)),
  NoDup L.*1 ->
  (forall a nb, (a, nb) ∈ L -> G !! a = Some nb) ->
  (forall a nb b, (a, nb) ∈ L -> is_Some (nb !! b) -> exists d, denominator tl a b = Done d) ->
  exists G' C',
    foldM (fun st anb => foldM (confidenceStep tl anb.1) ((range F anb.2).*1) st) L (G, C)
      = Done (G', C') /\
    (forall a nb, (a, nb) ∈ L ->
       forall b', edgeWeight C' a b' = confRow tl a nb ((range F nb).*1) C b') /\
    (forall a', a' ∉ L.*1 -> C' !! a' = C !! a').
Proof.
  intros Hok. induction L as [|[a nb] L IH]; intros G C Hnd HG Hden.
  - exists G, C. split; [done|]. split; [|done]. intros a nb Hin. by apply elem_of_nil in Hin.
  - rewrite fmap_cons in Hnd. apply NoDup_cons in Hnd as [Ha Hnd]. simpl in Ha.
    destruct (rowPass_spec tl a ((range F nb).*1) G C nb) as
      (G1 & C1 & nb1 & Hrun1 & HG1 & _ & Hrows1 & Hrow1).
    { by apply range_NoDup. }
    { apply HG, list_elem_of_here. }
    { intros b Hb. apply (Hden a nb); [apply list_elem_of_here|]. by apply range_keys in Hb. }
    rewrite foldM_cons. simpl fst. simpl snd. rewrite Hrun1, bind_Done.
    destruct (IH G1 C1 Hnd) as (G' & C' & Hrun & Hin' & Hout').
    { intros a' nb' Hin. rewrite HG1, lookup_insert_ne.
      - apply HG. by apply list_elem_of_further.
      - intros <-. apply Ha. apply list_elem_of_fmap. by exists (a, nb'). }
    { intros a' nb' b Hin. apply Hden. by apply list_elem_of_further. }
    exists G', C'. split; [done|]. split.
    + intros a' nb' Hin b'. apply elem_of_cons in Hin as [[= -> ->]|Hin].
      * unfold edgeWeight at 1. rewrite Hout' by done. apply Hrow1.
      * rewrite (Hin' a' nb' Hin). apply confRow_ext, Hrows1.
        intros ->. apply Ha. apply list_elem_of_fmap. by exists (a, nb').
    + intros a' Hnotin. rewrite fmap_cons in Hnotin.
      apply not_elem_of_cons in Hnotin as [Hne Hnotin].
      rewrite Hout' by done. by apply Hrows1.
Qed.

(** Every neighbour is itself a key of the graph, as in the graphs that
    [makeGraph] builds by inserting each edge in both directions. *)
Definition closedGraph (G : gmap Node (gmap Node F)) : Prop :=
  forall a b w, edgeWeight G a b = Some w -> is_Some (G !! b).


Lemma foldM_Done_inv {A S : Type} (f : S -> A -> result S) (l : list A) (s s' : S) (x : A) :
  foldM f l s = Done s' -> x ∈ l -> exists s1 s2, f s1 x = Done s2.
Proof.
  revert s. induction l as [|y l IH]; intros s Hrun Hin.
  - by apply elem_of_nil in Hin.
  - rewrite foldM_cons in Hrun. destruct (f s y) as [s1| |] eqn:Hf; [|done..].
    rewrite bind_Done in Hrun.
    apply elem_of_cons in Hin as [->|Hin]; eauto.
Qed.

Lemma getSecondLargest_Done_length (a b : list F) (d : F) :
  getSecondLargest a b = Done d -> 4 <= length a + length b.
Proof.
  unfold getSecondLargest. intros Hd.
  rewrite <- length_app, <- sortFloat64s_length.
  destruct (sortFloat64s (a ++ b)) as [|A0 [|A1 [|A2 [|A3 ?]]]]; simplify_eq/=. lia.
Qed.

Lemma confidenceStep_Done_inv (tl : gmap Node (list F)) (a b : Node)
    (st st' : gmap Node (gmap Node F) * gmap Node (gmap Node F)) :
  confidenceStep tl a st b = Done st' -> exists d, denominator tl a b = Done d.
Proof.
  unfold confidenceStep, denominator. destruct st as [G C].
  destruct (getSecondLargest _ _) as [d| |]; [eauto|done..].
Qed.

(** The call returns exactly on the closed graphs; on any other graph the
    index [A[3]] in [getSecondLargest] panics. *)
Lemma makeConfidenceGraph_Done_closed (range : ranger) (G G' C : gmap Node (gmap Node F)) :
  ranger_ok range ->
  makeConfidenceGraph range G = Done (G', C) -> closedGraph G.
Proof.
  intros Hok Hrun a b w Hw. unfold edgeWeight in Hw.
  destruct (G !! a) as [nb|] eqn:HG; [simpl in Hw|done].
  unfold makeConfidenceGraph in Hrun.
  destruct (foldM_Done_inv _ _ _ _ (a, nb) Hrun) as (st1 & st2 & Hrow);
    [by apply range_lookup|].
  simpl in Hrow.
  destruct (foldM_Done_inv _ _ _ _ b Hrow) as (st3 & st4 & Hstep);
    [apply range_keys; eauto|].
  apply confidenceStep_Done_inv in Hstep as [d Hd].
  apply getSecondLargest_Done_length in Hd.
  rewrite !twoLargest_lookup in Hd by done. rewrite HG in Hd. simpl in Hd.
  rewrite twoLargestOf_length in Hd.
  destruct (G !! b); [eauto|]. simpl in Hd. lia.
Qed.

(** The entry [(a, b)] of the confidence graph of [G]: the weight divided by
    the confidence denominator, kept when it exceeds 1. *)
Definition confidenceOf (range : ranger) (G : gmap Node (gmap Node F)) (a b : Node)
    : option F :=
  w ← edgeWeight G a b;
  match denominator (twoLargest range G) a b with
  | Done d => if num_gt (num_div w d) num_one then Some (num_div w d) else None
  | _ => None
  end.

Lemma denominator_closed (range : ranger) (G : gmap Node (gmap Node F)) (a b : Node) :
  ranger_ok range -> is_Some (G !! a) -> is_Some (G !! b) ->
  exists ta tb A0 A1 A2 A3,
    twoLargest range G !! a = Some ta /\ twoLargest range G !! b = Some tb /\
    sortFloat64s (ta ++ tb) = [A0; A1; A2; A3] /\
    getSecondLargest ta tb = Done (if num_eq A3 A2 && num_gt A1 num_zero then A1 else A2) /\
    denominator (twoLargest range G) a b
      = Done (if num_eq A3 A2 && num_gt A1 num_zero then A1 else A2).
Proof.
  intros Hok [nb HG] [nb' HG'].
  destruct (getSecondLargest_total (twoLargestOf ((range F nb).*2))
              (twoLargestOf ((range F nb').*2)))
    as (A0 & A1 & A2 & A3 & Hsort & Hgsl); [apply twoLargestOf_length..|].
  eexists _, _, A0, A1, A2, A3. unfold denominator.
  rewrite !twoLargest_lookup by done. rewrite HG, HG'. simpl. done.
Qed.

Lemma makeConfidenceGraph_closed (range : ranger) (G : gmap Node (gmap Node F)) :
  ranger_ok range -> closedGraph G ->
  exists G' C, makeConfidenceGraph range G = Done (G', C) /\
    forall a b, edgeWeight C a b = confidenceOf range G a b.
Proof.
  intros Hok Hclosed.
  destruct (pass2_spec (twoLargest range G) range (range _ G) Hok G ∅)
    as (G' & C & Hrun & Hin & Hout).
  { by apply range_NoDup. }
  { intros a nb Hanb. by apply range_lookup in Hanb. }
  { intros a nb b Hanb [w Hw]. apply range_lookup in Hanb; [|done].
    destruct (denominator_closed range G a b Hok) as (? & ? & ? & ? & ? & ? & _ & _ & _ & _ & Hd);
      [eauto| |eauto].
    apply (Hclosed a b w). unfold edgeWeight. by rewrite Hanb. }
  exists G', C. split; [done|]. intros a b. unfold confidenceOf.
  destruct (G !! a) as [nb|] eqn:HG.
  - rewrite (Hin a nb) by (by apply range_lookup). unfold confRow.
    assert (edgeWeight (∅ : gmap Node (gmap Node F)) a b = None) as ->.
    { unfold edgeWeight. by rewrite lookup_empty. }
    assert (edgeWeight G a b = nb !! b) as -> by (unfold edgeWeight; by rewrite HG).
    case_decide as Hb.
    + apply range_keys in Hb as [w Hw]; [|done]. rewrite Hw. simpl.
      by destruct (denominator (twoLargest range G) a b).
    + destruct (nb !! b) as [w|] eqn:Hw; [|done].
      exfalso. apply Hb. apply range_keys; eauto.
  - unfold edgeWeight. rewrite HG, Hout.
    + by rewrite lookup_empty.
    + rewrite range_keys by done. rewrite HG. by intros [? ?].
Qed.

Lemma makeConfidenceGraph_edgeWeight (range : ranger) (G G' C : gmap Node (gmap Node F)) :
  ranger_ok range -> makeConfidenceGraph range G = Done (G', C) ->
  forall a b, edgeWeight C a b = confidenceOf range G a b.
Proof.
  intros Hok Hrun.
  destruct (makeConfidenceGraph_closed range G Hok) as (G'' & C'' & Hrun' & Hspec).
  { by eapply makeConfidenceGraph_Done_closed. }
  rewrite Hrun in Hrun'. by injection Hrun' as -> ->.
Qed.

Lemma makeConfidenceGraph_Done_iff (range : ranger) (G : gmap Node (gmap Node F)) :
  ranger_ok range ->
  closedGraph G <-> exists G' C, makeConfidenceGraph range G = Done (G', C).
Proof.
  intros Hok. split.
  - intros Hclosed.
    destruct (makeConfidenceGraph_closed range G Hok Hclosed) as (G' & C & Hrun & _).
    eauto.
  - intros (G' & C & Hrun). by eapply makeConfidenceGraph_Done_closed.
Qed.

End ConfidenceFacts.

(** C1.  [makeConfidenceGraph] returns exactly on the graphs in which every
    neighbour is a key.  The graph it returns has the edge [(a, b)] if and only
    if [(a, b)] is an edge of [G] whose weight, divided by its confidence
    denominator, exceeds 1; the value stored is that quotient.  The
    denominator is [getSecondLargest] of the two ends' top-2 lists: with [A]
    the four values sorted, it is [A[2]], or [A[1]] when [A[3] == A[2]] and
    [A[1] > 0]. *)
Theorem makeConfidenceGraph_membership {F : Type} `{Num F} (range : ranger)
    (G : gmap Node (gmap Node F)) :
  ranger_ok range ->
  (closedGraph G <-> exists G' C, makeConfidenceGraph range G = Done (G', C)) /\
  (forall G' C, makeConfidenceGraph range G = Done (G', C) ->
    forall a b q, edgeWeight C a b = Some q <->
      exists w ta tb A0 A1 A2 A3 d,
        edgeWeight G a b = Some w /\
        twoLargest range G !! a = Some ta /\
        twoLargest range G !! b = Some tb /\
        sortFloat64s (ta ++ tb) = [A0; A1; A2; A3] /\
        getSecondLargest ta tb = Done d /\
        d = (if num_eq A3 A2 && num_gt A1 num_zero then A1 else A2) /\
        q = num_div w d /\ num_gt q num_one = true).
Proof.
  intros Hok. split; [by apply makeConfidenceGraph_Done_iff|].
  intros G' C Hrun a b q.
  {
    pose proof (makeConfidenceGraph_Done_closed range G G' C Hok Hrun) as Hclosed.
    rewrite (makeConfidenceGraph_edgeWeight range G G' C Hok Hrun). unfold confidenceOf.
    destruct (edgeWeight G a b) as [w|] eqn:Hw; simpl.
    + destruct (denominator_closed range G a b Hok)
        as (ta & tb & A0 & A1 & A2 & A3 & Hta & Htb & Hsort & Hgsl & Hd).
      { unfold edgeWeight in Hw. destruct (G !! a); [eauto|done]. }
      { by apply (Hclosed a b w). }
      rewrite Hd. set (d := if num_eq A3 A2 && num_gt A1 num_zero then A1 else A2) in *.
      split.
      * destruct (num_gt (num_div w d) num_one) eqn:Hgt; [|done].
        intros [= <-]. exists w, ta, tb, A0, A1, A2, A3, d. done.
      * intros (w' & ta' & tb' & B0 & B1 & B2 & B3 & d' & Hw' & Hta' & Htb' &
                  Hsort' & Hgsl' & Hd' & Hq & Hgt).
        assert (w' = w) as -> by congruence.
        assert (ta' = ta) as -> by congruence.
        assert (tb' = tb) as -> by congruence.
        assert (d' = d) as Hdd by congruence.
        rewrite Hdd in Hq. rewrite <- Hq, Hgt. done.
    + split; [done|]. by intros (w' & ? & ? & ? & ? & ? & ? & ? & Hw' & _).
  }
Qed.

(** Three ends: end 1 linked to end 2 with weight 3 and to end 3 with weight
    2, each link in both directions. *)
Definition starGraph : Graph :=
  {[ Some 1%positive := {[ Some 2%positive := 3%float; Some 3%positive := 2%float ]};
     Some 2%positive := {[ Some 1%positive := 3%float ]};
     Some 3%positive := {[ Some 1%positive := 2%float ]} ]}.

Lemma makeConfidenceGraph_membership_witness :
  (closedGraph starGraph <->
     exists G' C, makeConfidenceGraph listRange starGraph = Done (G', C)) /\
  (forall G' C, makeConfidenceGraph listRange starGraph = Done (G', C) ->
    forall a b q, edgeWeight C a b = Some q <->
      exists w ta tb A0 A1 A2 A3 d,
        edgeWeight starGraph a b = Some w /\
        twoLargest listRange starGraph !! a = Some ta /\
        twoLargest listRange starGraph !! b = Some tb /\
        sortFloat64s (ta ++ tb) = [A0; A1; A2; A3] /\
        getSecondLargest ta tb = Done d /\
        d = (if num_eq A3 A2 && num_gt A1 num_zero then A1 else A2) /\
        q = num_div w d /\ num_gt q num_one = true).
Proof. exact (makeConfidenceGraph_membership listRange starGraph listRange_ok). Defined.

(** On [starGraph] only the edge between the ends 1 and 2 survives: its
    denominator is 2, the weight of the other link of end 1. *)
Example makeConfidenceGraph_starGraph :
  exists G' C, makeConfidenceGraph listRange starGraph = Done (G', C) /\
    edgeWeight C (Some 1%positive) (Some 2%positive) = Some 1.5%float /\
    edgeWeight C (Some 2%positive) (Some 1%positive) = Some 1.5%float /\
    edgeWeight C (Some 1%positive) (Some 3%positive) = None /\
    edgeWeight C (Some 3%positive) (Some 1%positive) = None.
Proof. eexists _, _. split; [vm_compute; reflexivity|]. by vm_compute. Qed.

(** A neighbour that is not a key: [twoLargest[b]] is the nil slice and
    [A[3]] is out of range. *)
Example makeConfidenceGraph_panics :
  makeConfidenceGraph listRange
    ({[ Some 1%positive := {[ Some 2%positive := 3%float ]} ]} : Graph) = Panic.
Proof. reflexivity. Qed.

(** ** sort.Float64s sorts *)

Section SortFacts.
Context {F : Type} `{Num F}.

(** [x] does not come before [y] in the order of [sort.Float64s]. *)
Definition notBefore (x y : F) : Prop := less x y = false.

Lemma insertSorted_HdRel (x y : F) (sorted : list F) :
  notBefore y x -> HdRel notBefore y sorted -> HdRel notBefore y (insertSorted x sorted).
Proof.
  intros Hyx Hhd. destruct sorted as [|z rest]; simpl; [by constructor|].
  apply HdRel_inv in Hhd. destruct (less x z); by constructor.
Qed.

Lemma insertSorted_Sorted (x : F) (sorted : list F) :
  (forall a b : F, less a b = true -> less b a = false) ->
  Sorted notBefore sorted -> Sorted notBefore (insertSorted x sorted).
Proof.
  intros Hasym. induction sorted as [|y rest IH]; intros Hs; simpl.
  - by repeat constructor.
  - apply Sorted_inv in Hs as [Hrest Hhd].
    destruct (less x y) eqn:Hxy.
    + constructor; [by apply IH|]. apply insertSorted_HdRel; [|done]. by apply Hasym.
    + constructor; [by constructor|]. by constructor.
Qed.

(** The slice that [sort.Float64s] leaves is ascending: no element comes
    before its left neighbour. *)
Lemma sortFloat64s_Sorted (l : list F) :
  (forall a b : F, less a b = true -> less b a = false) ->
  Sorted (flip notBefore) (sortFloat64s l).
Proof.
  intros Hasym. unfold sortFloat64s. apply Sorted_reverse.
  assert (forall acc, Sorted notBefore acc ->
            Sorted notBefore (fold_left (fun sorted x => insertSorted x sorted) l acc)) as Hfold.
  { induction l as [|x l IH]; intros acc Hacc; simpl; [done|].
    by apply IH, insertSorted_Sorted. }
  apply Hfold. constructor.
Qed.

End SortFacts.

Lemma less_asym_float64 (a b : float) : less a b = true -> less b a = false.
Proof.
  unfold less. simpl. intros Hab.
  apply orb_true_iff in Hab as [Hlt|Hnan].
  - rewrite (Float64Facts.lt_asym _ _ Hlt), (Float64Facts.lt_eq_refl_r _ _ Hlt). done.
  - apply andb_true_iff in Hnan as [Ha Hb]. apply negb_true_iff in Ha.
    rewrite (Float64Facts.nan_not_above _ _ Ha), Hb. done.
Qed.

Lemma sortFloat64s_ascending (l : list float) :
  Sorted (fun x y => less y x = false) (sortFloat64s l).
Proof. apply (sortFloat64s_Sorted l less_asym_float64). Qed.

(** ** Scaling the link scores *)

(** Every raw link score multiplied by [c]. *)
Definition scaleGraph {F : Type} `{Num F} (c : F) (G : gmap Node (gmap Node F))
    : gmap Node (gmap Node F) :=
  (fun nb : gmap Node F => num_mul c <$> nb) <$> G.

Module Exact.
Local Open Scope Qc_scope.

(** In exact arithmetic the top-2 accumulator is ordered. *)
Definition ordered (acc : Qc * Qc) : Prop := (acc.2 <= acc.1)%Qc.

Ltac qc_contra := exfalso; unfold Qclt, Qcle in *; lra.

Ltac qc_order :=
  repeat (case_bool_decide; simpl in *; try qc_contra);
  try done;
  try (f_equal; apply Qc_is_canon; unfold Qclt, Qcle in *; lra).

Lemma twoLargestStep_ordered (acc : Qc * Qc) (x : Qc) :
  ordered acc -> ordered (twoLargestStep acc x).
Proof.
  destruct acc as [f s]. unfold ordered, twoLargestStep, num_gt. simpl.
  intros Hfs. qc_order; unfold Qclt, Qcle in *; lra.
Qed.

Lemma twoLargestStep_comm (acc : Qc * Qc) (x y : Qc) :
  ordered acc ->
  twoLargestStep (twoLargestStep acc x) y = twoLargestStep (twoLargestStep acc y) x.
Proof.
  destruct acc as [f s]. unfold ordered, twoLargestStep, num_gt. simpl.
  intros Hfs. qc_order.
Qed.


Lemma fold_twoLargestStep_ordered (l : list Qc) (acc : Qc * Qc) :
  ordered acc -> ordered (fold_left twoLargestStep l acc).
Proof.
  revert acc. induction l as [|x l IH]; intros acc Hacc; simpl; [done|].
  by apply IH, twoLargestStep_ordered.
Qed.

(** The top-2 values do not depend on the order of enumeration. *)
Lemma fold_twoLargestStep_perm (l l' : list Qc) :
  l ≡ₚ l' ->
  forall acc, ordered acc ->
    fold_left twoLargestStep l acc = fold_left twoLargestStep l' acc.
Proof.
  induction 1 as [|x l l' _ IH|x y l|l l' l'' _ IH1 _ IH2]; intros acc Hacc; simpl.
  - done.
  - by apply IH, twoLargestStep_ordered.
  - by rewrite twoLargestStep_comm.
  - by rewrite IH1, IH2.
Qed.

Lemma twoLargestOf_perm (l l' : list Qc) :
  l ≡ₚ l' -> twoLargestOf l = twoLargestOf l'.
Proof.
  intros Hperm. unfold twoLargestOf.
  rewrite (fold_twoLargestStep_perm l l' Hperm); [done|].
  unfold ordered. simpl. done.
Qed.

Section Scaling.
Variable c : Qc.
Hypothesis c_pos : (0 < c)%Qc.

Lemma scale_lt (x y : Qc) : num_lt (c * x) (c * y) = num_lt x y.
Proof.
  simpl. apply bool_decide_ext. symmetry. by apply Qcmult_lt_mono_pos_l.
Qed.

Lemma scale_le (x y : Qc) : num_le (c * x) (c * y) = num_le x y.
Proof.
  simpl. apply bool_decide_ext. symmetry. by apply Qcmult_le_mono_pos_l.
Qed.

Lemma scale_inj (x y : Qc) : (c * x = c * y)%Qc -> x = y.
Proof.
  intros Heq. apply Qcle_antisym.
  - apply (Qcmult_le_mono_pos_l _ _ c c_pos). by rewrite Heq.
  - apply (Qcmult_le_mono_pos_l _ _ c c_pos). by rewrite Heq.
Qed.

Lemma scale_eq (x y : Qc) : num_eq (c * x) (c * y) = num_eq x y.
Proof.
  simpl. apply bool_decide_ext. split; [apply scale_inj|by intros ->].
Qed.

Lemma scale_zero : (c * 0 = 0)%Qc.
Proof. ring. Qed.

Lemma scale_gt_zero (x : Qc) : num_gt (c * x) num_zero = num_gt x num_zero.
Proof.
  unfold num_gt. change (@num_zero Qc _) with (0%Qc).
  rewrite <- scale_zero at 1. apply scale_lt.
Qed.

Lemma scale_div (w d : Qc) : num_div (c * w) (c * d) = num_div w d.
Proof.
  simpl. unfold Qcdiv. rewrite Qcinv_mult_distr.
  transitivity ((c * / c) * (w * / d))%Qc; [ring|].
  rewrite Qcmult_inv_r; [ring|].
  intros Hc0. rewrite Hc0 in c_pos. by apply Qclt_not_eq in c_pos.
Qed.

Lemma scale_div_l (s p : Qc) : num_div (c * s) p = (c * num_div s p)%Qc.
Proof. simpl. unfold Qcdiv. ring. Qed.

Lemma scale_twoLargestStep (acc : Qc * Qc) (x : Qc) :
  twoLargestStep (c * acc.1, c * acc.2)%Qc (c * x)%Qc =
    (c * (twoLargestStep acc x).1, c * (twoLargestStep acc x).2)%Qc.
Proof.
  destruct acc as [f s]. unfold twoLargestStep, num_gt. simpl fst. simpl snd.
  rewrite !scale_lt, !scale_le.
  simpl. destruct (bool_decide (f < x)); simpl; [done|].
  by destruct (bool_decide (x <= f) && bool_decide (s < x)).
Qed.

Lemma scale_fold_twoLargestStep (l : list Qc) (acc : Qc * Qc) :
  fold_left twoLargestStep (Qcmult c <$> l) (c * acc.1, c * acc.2)%Qc =
    (c * (fold_left twoLargestStep l acc).1, c * (fold_left twoLargestStep l acc).2)%Qc.
Proof.
  revert acc. induction l as [|x l IH]; intros acc; [done|].
  rewrite fmap_cons. cbn [fold_left]. rewrite scale_twoLargestStep. apply IH.
Qed.

Lemma scale_twoLargestOf (l : list Qc) :
  twoLargestOf (Qcmult c <$> l) = Qcmult c <$> twoLargestOf l.
Proof.
  unfold twoLargestOf.
  pose proof (scale_fold_twoLargestStep l (num_zero, num_zero)) as Hfold.
  simpl fst in Hfold. simpl snd in Hfold.
  change (@num_zero Qc _) with (0%Qc) in *. rewrite scale_zero in Hfold.
  rewrite Hfold. by destruct (fold_left twoLargestStep l (0%Qc, 0%Qc)).
Qed.

Lemma scale_less (x y : Qc) : less (c * x)%Qc (c * y)%Qc = less x y.
Proof. unfold less. by rewrite scale_lt, !scale_eq. Qed.

Lemma scale_insertSorted (x : Qc) (sorted : list Qc) :
  insertSorted (c * x)%Qc (Qcmult c <$> sorted) = Qcmult c <$> insertSorted x sorted.
Proof.
  induction sorted as [|y rest IH]; [done|].
  rewrite fmap_cons. cbn [insertSorted]. rewrite scale_less.
  destruct (less x y); [|done]. by rewrite IH.
Qed.

Lemma scale_insertion_fold (l acc : list Qc) :
  fold_left (fun sorted x => insertSorted x sorted) (Qcmult c <$> l) (Qcmult c <$> acc) =
    Qcmult c <$> fold_left (fun sorted x => insertSorted x sorted) l acc.
Proof.
  revert acc. induction l as [|x l IH]; intros acc; [done|].
  rewrite fmap_cons. cbn [fold_left]. rewrite scale_insertSorted. apply IH.
Qed.

Lemma scale_sortFloat64s (l : list Qc) :
  sortFloat64s (Qcmult c <$> l) = Qcmult c <$> sortFloat64s l.
Proof.
  unfold sortFloat64s. rewrite fmap_reverse. f_equal.
  apply (scale_insertion_fold l []).
Qed.

Lemma scale_getSecondLargest (a b : list Qc) :
  getSecondLargest (Qcmult c <$> a) (Qcmult c <$> b) =
    match getSecondLargest a b with
    | Done d => Done (c * d)%Qc
    | Panic => Panic
    | OutOfFuel => OutOfFuel
    end.
Proof.
  unfold getSecondLargest. rewrite <- fmap_app, scale_sortFloat64s.
  destruct (sortFloat64s (a ++ b)) as [|A0 [|A1 [|A2 [|A3 rest]]]]; try reflexivity.
  cbn -[num_eq num_gt num_zero]. rewrite scale_eq, scale_gt_zero.
  by destruct (num_eq A3 A2 && num_gt A1 num_zero).
Qed.


Lemma scaleGraph_lookup (G : gmap Node (gmap Node Qc)) (a : Node) :
  scaleGraph c G !! a = (fun nb : gmap Node Qc => Qcmult c <$> nb) <$> G !! a.
Proof. unfold scaleGraph. by rewrite lookup_fmap. Qed.

Lemma edgeWeight_scale (G : gmap Node (gmap Node Qc)) (a b : Node) :
  edgeWeight (scaleGraph c G) a b = Qcmult c <$> edgeWeight G a b.
Proof.
  unfold edgeWeight. rewrite scaleGraph_lookup.
  destruct (G !! a) as [nb|]; simpl; [|done]. by rewrite lookup_fmap.
Qed.

(** Scaling the scores before the normalisation scales the normalised weights. *)
Lemma normalizeEdges_scale (length : Node -> Z) (G : gmap Node (gmap Node Qc)) :
  normalizeEdges length (scaleGraph c G) = scaleGraph c (normalizeEdges length G).
Proof.
  apply map_eq. intros a. unfold normalizeEdges.
  rewrite scaleGraph_lookup, !map_lookup_imap, scaleGraph_lookup.
  destruct (G !! a) as [nb|]; simpl; [|done]. f_equal.
  apply map_eq. intros b. rewrite lookup_fmap, !map_lookup_imap, lookup_fmap.
  destruct (nb !! b) as [score|]; simpl; [|done]. f_equal.
  apply scale_div_l.
Qed.

Lemma twoLargest_scale (range : ranger) (G : gmap Node (gmap Node Qc)) (a : Node) :
  ranger_ok range ->
  twoLargest range (scaleGraph c G) !! a = fmap (Qcmult c) <$> twoLargest range G !! a.
Proof.
  intros Hok. rewrite !twoLargest_lookup by done. rewrite scaleGraph_lookup.
  destruct (G !! a) as [nb|]; simpl; [|done]. f_equal.
  rewrite <- scale_twoLargestOf. apply twoLargestOf_perm.
  rewrite (Hok _ (Qcmult c <$> nb)), (Hok _ nb), map_to_list_fmap.
  rewrite <- !list_fmap_compose. done.
Qed.

Lemma denominator_scale (range : ranger) (G : gmap Node (gmap Node Qc)) (a b : Node) :
  ranger_ok range ->
  denominator (twoLargest range (scaleGraph c G)) a b =
    match denominator (twoLargest range G) a b with
    | Done d => Done (c * d)
    | Panic => Panic
    | OutOfFuel => OutOfFuel
    end.
Proof.
  intros Hok. unfold denominator. rewrite !twoLargest_scale by done.
  rewrite <- scale_getSecondLargest. f_equal.
  - by destruct (twoLargest range G !! a).
  - by destruct (twoLargest range G !! b).
Qed.

(** The confidence of every edge is unchanged by the scaling. *)
Lemma confidenceOf_scale (range : ranger) (G : gmap Node (gmap Node Qc)) (a b : Node) :
  ranger_ok range ->
  confidenceOf range (scaleGraph c G) a b = confidenceOf range G a b.
Proof.
  intros Hok. unfold confidenceOf. rewrite edgeWeight_scale, denominator_scale by done.
  destruct (edgeWeight G a b) as [w|]; simpl; [|done].
  destruct (denominator (twoLargest range G) a b) as [d| |]; [|done..].
  pose proof (scale_div w d) as Hdiv. simpl in Hdiv. by rewrite Hdiv.
Qed.

Lemma closedGraph_scale (G : gmap Node (gmap Node Qc)) :
  closedGraph (scaleGraph c G) <-> closedGraph G.
Proof.
  unfold closedGraph. split; intros Hclosed a b w Hw.
  - destruct (Hclosed a b (c * w)) as [nb Hnb].
    + by rewrite edgeWeight_scale, Hw.
    + rewrite scaleGraph_lookup in Hnb. destruct (G !! b); [eauto|done].
  - rewrite edgeWeight_scale in Hw.
    destruct (edgeWeight G a b) as [w'|] eqn:Hw'; [|done].
    destruct (Hclosed a b w' Hw') as [nb Hnb].
    rewrite scaleGraph_lookup, Hnb. eauto.
Qed.

End Scaling.
End Exact.


(** [starGraph] with rational scores. *)
Definition starGraphQ : gmap Node (gmap Node Qc) :=
  {[ Some 1%positive := {[ Some 2%positive := Q2Qc 3; Some 3%positive := Q2Qc 2 ]};
     Some 2%positive := {[ Some 1%positive := Q2Qc 3 ]};
     Some 3%positive := {[ Some 1%positive := Q2Qc 2 ]} ]}.


(** On binary64 the scaling can overflow.  All paths have length 2, the scores
    of [starGraph] are multiplied by [c = 2^1023]: both products overflow to
    [+Inf], the denominator of the edge between the ends 1 and 2 becomes [+Inf]
    and its confidence [NaN], so the edge leaves the confidence graph, in which
    it is with confidence 1.5 when the scores are not scaled. *)
Example confidence_scale_overflow :
  Float64.gt 0x1p+1023 0 = true /\
  edgeWeight (normalizeEdges (fun _ => 2%Z) (scaleGraph 0x1p+1023%float starGraph))
    (Some 1%positive) (Some 2%positive) = Some infinity /\
  exists Gs Cs G' C,
    makeConfidenceGraph listRange
      (normalizeEdges (fun _ => 2%Z) (scaleGraph 0x1p+1023%float starGraph))
      = Done (Gs, Cs) /\
    makeConfidenceGraph listRange (normalizeEdges (fun _ => 2%Z) starGraph)
      = Done (G', C) /\
    edgeWeight C (Some 1%positive) (Some 2%positive) = Some 1.5%float /\
    edgeWeight Cs (Some 1%positive) (Some 2%positive) = None.
Proof.
  split; [reflexivity|]. split; [by vm_compute|].
  eexists _, _, _, _. split; [vm_compute; reflexivity|].
  split; [vm_compute; reflexivity|]. by vm_compute.
Qed.

(** A symmetric graph of link counts: end 1 (path length 11) has 6 links to
    end 2 (path length 18) and 9 links to end 3 (path length 27). *)
Definition tieGraph : Graph :=
  {[ Some 1%positive := {[ Some 2%positive := 6%float; Some 3%positive := 9%float ]};
     Some 2%positive := {[ Some 1%positive := 6%float ]};
     Some 3%positive := {[ Some 1%positive := 9%float ]} ]}.

Definition tieLength (a : Node) : Z :=
  match a with
  | Some 1%positive => 11
  | Some 2%positive => 18
  | _ => 27
  end.


(** ** The confidence graph in exact arithmetic: one edge per end *)

Module ExactConfidence.
Local Open Scope Qc_scope.

Ltac qc_lra := unfold Qcle, Qclt in *; simpl in *; lra.

(** What the first loop of [makeConfidenceGraph] computes, in exact
    arithmetic: [first] bounds every score, [second] bounds the smaller of any
    two scores, and neither goes down. *)
Lemma fold_twoLargestStep_spec (l : list Qc) :
  forall f0 s0 : Qc, s0 <= f0 ->
  exists f s, fold_left twoLargestStep l (f0, s0) = (f, s) /\
    s <= f /\ f0 <= f /\ s0 <= s /\
    (forall x, x ∈ l -> x <= f) /\
    (forall x, x ∈ l -> x <= s \/ f0 <= s) /\
    (forall i j x y, i <> j -> l !! i = Some x -> l !! j = Some y -> x <= s \/ y <= s).
Proof.
  induction l as [|x l IH]; intros f0 s0 H0.
  - exists f0, s0. split; [done|]. split; [done|]. split; [apply Qcle_refl|].
    split; [apply Qcle_refl|]. split; [intros y Hy; by apply elem_of_nil in Hy|].
    split; [intros y Hy; by apply elem_of_nil in Hy|].
    intros i j y z _ Hi. by rewrite lookup_nil in Hi.
  - cbn [fold_left].
    assert (exists f1 s1, twoLargestStep (f0, s0) x = (f1, s1) /\
              s1 <= f1 /\ f0 <= f1 /\ s0 <= s1 /\ x <= f1 /\ (x <= s1 \/ f0 <= s1))
      as (f1 & s1 & -> & H1 & Hf1 & Hs1 & Hx1 & Hmin).
    { unfold twoLargestStep, num_gt. simpl.
      repeat case_bool_decide; simpl; eexists _, _; (split; [done|]);
        repeat split; try qc_lra; try (left; qc_lra); try (right; qc_lra). }
    destruct (IH f1 s1 H1) as (f & s & Hfold & Hsf & Hf & Hs & Hall & Hone & Hpair).
    exists f, s. split; [done|]. split; [done|].
    split; [qc_lra|]. split; [qc_lra|]. split; [|split].
    + intros y Hy. apply elem_of_cons in Hy as [->|Hy]; [qc_lra|by apply Hall].
    + intros y Hy. apply elem_of_cons in Hy as [->|Hy].
      * destruct Hmin; [left|right]; qc_lra.
      * destruct (Hone y Hy); [by left|right; qc_lra].
    + intros i j y z Hij Hi Hj. destruct i as [|i], j as [|j]; simplify_eq/=.
      * assert (z ∈ l) as Hz by (by eapply list_elem_of_lookup_2).
        destruct (Hone z Hz); [by right|left; qc_lra].
      * assert (y ∈ l) as Hy by (by eapply list_elem_of_lookup_2).
        destruct (Hone y Hy); [by left|right; qc_lra].
      * apply (Hpair i j); [congruence|done..].
Qed.

Lemma twoLargestOf_spec (l : list Qc) :
  exists f s, twoLargestOf l = [f; s] /\ 0 <= s /\ s <= f /\
    (forall x, x ∈ l -> x <= f) /\
    (forall i j x y, i <> j -> l !! i = Some x -> l !! j = Some y -> x <= s \/ y <= s).
Proof.
  destruct (fold_twoLargestStep_spec l 0 0) as (f & s & Hfold & Hsf & _ & Hs & Hall & _ & Hpair);
    [apply Qcle_refl|].
  exists f, s. unfold twoLargestOf. change (@num_zero Qc _) with 0. rewrite Hfold. done.
Qed.


Lemma less_exact (x y : Qc) : less x y = bool_decide (x < y).
Proof.
  unfold less. simpl. rewrite (bool_decide_true (x = x)) by done.
  simpl. by rewrite orb_false_r.
Qed.

Lemma less_asym_exact (x y : Qc) : less x y = true -> less y x = false.
Proof.
  rewrite !less_exact. intros Hxy. apply bool_decide_eq_true in Hxy.
  apply bool_decide_eq_false. qc_lra.
Qed.

(** Of four values sorted, the one at index 1 is at least any bound that three
    of the values reach. *)
Lemma second_smallest_bound (B : list Qc) (A0 A1 A2 A3 w : Qc) :
  sortFloat64s B = [A0; A1; A2; A3] ->
  (3 <= length (filter (fun x : Qc => (w <= x)%Qc) B))%nat ->
  w <= A1 /\ A1 <= A2.
Proof.
  intros Hsort Hcount.
  pose proof (sortFloat64s_Sorted B less_asym_exact) as Hsorted.
  pose proof (sortFloat64s_perm B) as Hperm.
  rewrite Hsort in Hsorted, Hperm.
  apply Sorted_inv in Hsorted as [Hsorted H01]. apply HdRel_inv in H01.
  apply Sorted_inv in Hsorted as [Hsorted H12]. apply HdRel_inv in H12.
  unfold flip, notBefore in H01, H12. rewrite less_exact in H01, H12.
  apply bool_decide_eq_false in H01, H12.
  split; [|qc_lra].
  destruct (Qclt_le_dec A1 w) as [Hlt|]; [exfalso|done].
  rewrite <- Hperm in Hcount. rewrite !filter_cons, filter_nil in Hcount.
  rewrite (decide_False (P := w <= A0)) in Hcount by qc_lra.
  rewrite (decide_False (P := w <= A1)) in Hcount by qc_lra.
  repeat case_decide; simpl in Hcount; lia.
Qed.

(** With a positive denominator the test [w / d > 1] is [w > d]. *)
Lemma div_gt_one (w d : Qc) : 0 < d -> 1 < w / d -> d < w.
Proof.
  intros Hd Hq. apply (Qcmult_lt_mono_pos_r _ _ d Hd) in Hq.
  assert (w / d * d = w) as Hw.
  { unfold Qcdiv. rewrite <- Qcmult_assoc, Qcmult_inv_l, Qcmult_1_r; [done|].
    intros ->. by apply Qclt_not_eq in Hd. }
  rewrite Hw, Qcmult_1_l in Hq. done.
Qed.

Lemma div_zero (w : Qc) : ~ 1 < w / 0.
Proof. unfold Qcdiv. replace (/ 0) with 0 by done. rewrite Qcmult_0_r. done. Qed.

Lemma scores_lookup (range : ranger) (nb : gmap Node Qc) (b : Node) (w : Qc) :
  ranger_ok range -> nb !! b = Some w ->
  exists i, range Qc nb !! i = Some (b, w) /\ (range Qc nb).*2 !! i = Some w.
Proof.
  intros Hok Hb. apply (range_lookup range _ _ _ _ Hok) in Hb.
  apply list_elem_of_lookup_1 in Hb as [i Hi]. exists i. split; [done|].
  by rewrite list_lookup_fmap, Hi.
Qed.

(** In exact arithmetic, an edge [(a, c)] of the confidence graph whose
    reverse [(c, a)] has the same weight is strictly heavier than every other
    edge of [a]. *)
Lemma confident_edge_is_heaviest (range : ranger) (G : gmap Node (gmap Node Qc))
    (a b c : Node) (wb wc q : Qc) :
  ranger_ok range ->
  edgeWeight G a b = Some wb -> edgeWeight G a c = Some wc -> b <> c ->
  edgeWeight G c a = Some wc ->
  confidenceOf range G a c = Some q ->
  wb < wc.
Proof.
  intros Hok Hwb Hwc Hbc Hca Hconf.
  destruct (Qclt_le_dec wb wc) as [|Hle]; [done|exfalso].
  unfold confidenceOf in Hconf. rewrite Hwc in Hconf. simpl in Hconf.
  unfold edgeWeight in Hwb, Hwc, Hca.
  destruct (G !! a) as [nba|] eqn:HGa; [simpl in Hwb, Hwc|done].
  destruct (G !! c) as [nbc|] eqn:HGc; [simpl in Hca|done].
  destruct (twoLargestOf_spec ((range Qc nba).*2)) as (fa & sa & Hta & Hsa0 & Hsfa & Halla & Hpaira).
  destruct (twoLargestOf_spec ((range Qc nbc).*2)) as (fc & sc & Htc & Hsc0 & Hsfc & Hallc & _).
  unfold denominator in Hconf. rewrite !twoLargest_lookup in Hconf by done.
  rewrite HGa, HGc in Hconf. simpl in Hconf. rewrite Hta, Htc in Hconf.
  destruct (getSecondLargest_total [fa; sa] [fc; sc]) as (A0 & A1 & A2 & A3 & Hsort & Hgsl);
    [done..|].
  rewrite Hgsl in Hconf.
  set (d := if num_eq A3 A2 && num_gt A1 num_zero then A1 else A2) in *.
  case_bool_decide as Hgt; [|done].
  (* the bounds on the top-2 values *)
  destruct (scores_lookup range nba b wb Hok Hwb) as (i & Hib & Hi).
  destruct (scores_lookup range nba c wc Hok Hwc) as (j & Hjc & Hj).
  destruct (scores_lookup range nbc a wc Hok Hca) as (k & _ & Hk).
  assert (wc <= fa) as Hfa.
  { apply Qcle_trans with wb; [done|]. apply Halla. by eapply list_elem_of_lookup_2. }
  assert (wc <= sa) as Hsa.
  { destruct (Hpaira i j wb wc); [|done..| |done].
    - intros ->. rewrite Hib in Hjc. by simplify_eq.
    - by apply Qcle_trans with wb. }
  assert (wc <= fc) as Hfc.
  { apply Hallc. by eapply list_elem_of_lookup_2. }
  destruct (second_smallest_bound ([fa; sa] ++ [fc; sc]) A0 A1 A2 A3 wc Hsort) as [H1 H12].
  { simpl. rewrite !filter_cons, filter_nil.
    rewrite (decide_True (P := wc <= fa)), (decide_True (P := wc <= sa)),
      (decide_True (P := wc <= fc)) by done.
    case_decide; simpl; lia. }
  assert (wc <= d) as Hd by (unfold d; destruct (_ && _); [done|by apply Qcle_trans with A1]).
  assert (0 <= d) as Hd0.
  { assert (d ∈ [fa; sa] ++ [fc; sc]) as Hin.
    { rewrite <- (sortFloat64s_perm ([fa; sa] ++ [fc; sc])), Hsort.
      unfold d. destruct (_ && _).
      - apply list_elem_of_further, list_elem_of_here.
      - do 2 apply list_elem_of_further. apply list_elem_of_here. }
    simpl in Hin. rewrite !elem_of_cons in Hin.
    destruct Hin as [->|[->|[->|[->|Hin]]]]; [qc_lra..|by apply elem_of_nil in Hin]. }
  destruct (Qcle_lt_or_eq _ _ Hd0) as [Hpos|Hzero].
  - apply (div_gt_one wc d Hpos) in Hgt. qc_lra.
  - rewrite <- Hzero in Hgt. by apply div_zero in Hgt.
Qed.

(** So in the confidence graph of a graph with symmetric weights, computed in
    exact arithmetic, an end has at most one outgoing edge. *)
Lemma confident_edge_unique (range : ranger) (G G' C : gmap Node (gmap Node Qc))
    (a b c : Node) (qb qc : Qc) :
  ranger_ok range ->
  (forall x y, edgeWeight G x y = edgeWeight G y x) ->
  makeConfidenceGraph range G = Done (G', C) ->
  edgeWeight C a b = Some qb -> edgeWeight C a c = Some qc -> b = c.
Proof.
  intros Hok Hsym Hrun Hb Hc.
  rewrite (makeConfidenceGraph_edgeWeight range G G' C Hok Hrun) in Hb, Hc.
  destruct (decide (b = c)) as [|Hne]; [done|exfalso].
  assert (exists wb, edgeWeight G a b = Some wb) as [wb Hwb].
  { unfold confidenceOf in Hb. destruct (edgeWeight G a b); [eauto|done]. }
  assert (exists wc, edgeWeight G a c = Some wc) as [wc Hwc].
  { unfold confidenceOf in Hc. destruct (edgeWeight G a c); [eauto|done]. }
  pose proof (confident_edge_is_heaviest range G a b c wb wc qc Hok Hwb Hwc Hne) as H1.
  pose proof (confident_edge_is_heaviest range G a c b wc wb qb Hok Hwc Hwb) as H2.
  rewrite <- Hsym in H1, H2.
  specialize (H1 Hwc Hc). specialize (H2 (not_eq_sym Hne) Hwb Hb). qc_lra.
Qed.

End ExactConfidence.

(** ** The contact store *)

(** A record of the clm file as [ParseClm] holds it before the store is
    updated: the indices and orientations of the two contigs, the link count,
    the histogram and the mean distance. *)
Record Measured (GArray : Type) : Type := mkMeasured {
  m_ai : Z;
  m_bi : Z;
  m_ao : ascii;
  m_bo : ascii;
  m_nlinks : Z;
  m_gdists : GArray;
  m_meanDist : Z
}.
Arguments mkMeasured {GArray}.
Arguments m_ai {GArray}.
Arguments m_bi {GArray}.
Arguments m_ao {GArray}.
Arguments m_bo {GArray}.
Arguments m_nlinks {GArray}.
Arguments m_gdists {GArray}.
Arguments m_meanDist {GArray}.

Section ContactFacts.
Context {GArray : Type}.

Definition storeMeasured (r : CLMFile.t GArray) (m : Measured GArray) : CLMFile.t GArray :=
  storeRecord r (m_ai m) (m_bi m) (m_ao m) (m_bo m) (m_nlinks m) (m_gdists m) (m_meanDist m).

(** The [Contact] that the loop body builds for a record. *)
Definition contactOf (m : Measured GArray) : Contact.t :=
  Contact.mk (if decide (m_ao m <> m_bo m) then (-1)%Z else 1%Z) (m_nlinks m) (m_meanDist m).

(** The records of a list that have the key [(ai, bi)]. *)
Definition withKey (ai bi : Z) (ms : list (Measured GArray)) : list (Measured GArray) :=
  filter (fun m => (m_ai m, m_bi m) = (ai, bi)) ms.

(** The update of one entry of [contacts] by a record with its key. *)
Definition mergeContact (cur : option Contact.t) (m : Measured GArray) : option Contact.t :=
  match cur with
  | Some p => if decide (Contact.meanDist p > m_meanDist m)%Z then Some (contactOf m) else Some p
  | None => Some (contactOf m)
  end.

Lemma storeMeasured_same_key (r : CLMFile.t GArray) (m : Measured GArray) :
  CLMFile.contacts (storeMeasured r m) !! (m_ai m, m_bi m) =
    mergeContact (CLMFile.contacts r !! (m_ai m, m_bi m)) m.
Proof.
  unfold storeMeasured, storeRecord, mergeContact, contactOf. simpl.
  destruct (CLMFile.contacts r !! (m_ai m, m_bi m)) as [p|] eqn:Hp.
  - case_decide; [by rewrite lookup_insert_eq|done].
  - by rewrite lookup_insert_eq.
Qed.

Lemma storeMeasured_other_key (r : CLMFile.t GArray) (m : Measured GArray) (ai bi : Z) :
  (m_ai m, m_bi m) <> (ai, bi) ->
  CLMFile.contacts (storeMeasured r m) !! (ai, bi) = CLMFile.contacts r !! (ai, bi).
Proof.
  intros Hne. unfold storeMeasured, storeRecord. simpl.
  destruct (CLMFile.contacts r !! (m_ai m, m_bi m)) as [p|].
  - case_decide; [by rewrite lookup_insert_ne|done].
  - by rewrite lookup_insert_ne.
Qed.

Lemma contacts_fold (ms : list (Measured GArray)) (r : CLMFile.t GArray) (ai bi : Z) :
  CLMFile.contacts (fold_left storeMeasured ms r) !! (ai, bi) =
    fold_left mergeContact (withKey ai bi ms) (CLMFile.contacts r !! (ai, bi)).
Proof.
  revert r. induction ms as [|m ms IH]; intros r; [done|].
  cbn [fold_left]. rewrite IH. unfold withKey. rewrite filter_cons.
  case_decide as Hkey.
  - cbn [fold_left]. injection Hkey as <- <-. by rewrite storeMeasured_same_key.
  - by rewrite storeMeasured_other_key.
Qed.

(** From an empty entry the merge keeps the first record of least mean
    distance. *)
Lemma mergeContact_first_smallest (sub : list (Measured GArray)) :
  sub <> [] ->
  exists k m, sub !! k = Some m /\
    fold_left mergeContact sub None = Some (contactOf m) /\
    (forall j m', sub !! j = Some m' -> (m_meanDist m <= m_meanDist m')%Z) /\
    (forall j m', j < k -> sub !! j = Some m' -> (m_meanDist m < m_meanDist m')%Z).
Proof.
  induction sub as [|x l IH] using rev_ind; [done|]. intros _.
  rewrite fold_left_app. cbn [fold_left].
  destruct l as [|y l'].
  - exists 0, x. repeat split.
    + intros j m' Hj. destruct j; simplify_eq/=. lia.
    + intros j m' Hlt. lia.
  - destruct IH as (k & m & Hk & Hfold & Hmin & Hfirst); [done|].
    rewrite Hfold. unfold mergeContact. simpl Contact.meanDist.
    pose proof (lookup_lt_Some _ _ _ Hk) as Hklt.
    case_decide as Hgt.
    + exists (length (y :: l')), x. split; [|split; [done|split]].
      * rewrite lookup_app_r by lia. by rewrite Nat.sub_diag.
      * intros j m' Hj. apply lookup_app_Some in Hj as [Hj|[_ Hj]].
        -- specialize (Hmin j m' Hj). lia.
        -- apply list_lookup_singleton_Some in Hj as [_ <-]. lia.
      * intros j m' Hlt Hj. rewrite lookup_app_l in Hj by done.
        specialize (Hmin j m' Hj). lia.
    + exists k, m. split; [by apply lookup_app_l_Some|]. split; [done|]. split.
      * intros j m' Hj. apply lookup_app_Some in Hj as [Hj|[_ Hj]]; [eauto|].
        apply list_lookup_singleton_Some in Hj as [_ <-]. lia.
      * intros j m' Hlt Hj. rewrite lookup_app_l in Hj by lia. eauto.
Qed.

End ContactFacts.

(** C4, as the code has it.  For every sequence of records and every ordered
    pair of contig indices [(ai, bi)] not yet in [contacts], the [Contact]
    stored for [(ai, bi)] after the sequence is that of the first record with
    this key whose [meanDist] is least among the records with this key. *)
Theorem contacts_keep_first_smallest {GArray : Type} (r : CLMFile.t GArray)
    (ms : list (Measured GArray)) (ai bi : Z) :
  CLMFile.contacts r !! (ai, bi) = None ->
  withKey ai bi ms <> [] ->
  exists k m, withKey ai bi ms !! k = Some m /\
    CLMFile.contacts (fold_left storeMeasured ms r) !! (ai, bi) = Some (contactOf m) /\
    (forall j m', withKey ai bi ms !! j = Some m' -> (m_meanDist m <= m_meanDist m')%Z) /\
    (forall j m', j < k -> withKey ai bi ms !! j = Some m' ->
       (m_meanDist m < m_meanDist m')%Z).
Proof.
  intros Hnone Hne. rewrite contacts_fold, Hnone.
  by apply mergeContact_first_smallest.
Qed.

(** An existing [Contact] is replaced only by a record of strictly smaller
    [meanDist]; on a tie it is kept. *)
Lemma storeMeasured_replaces_if_smaller {GArray : Type} (r : CLMFile.t GArray)
    (m : Measured GArray) (p : Contact.t) :
  CLMFile.contacts r !! (m_ai m, m_bi m) = Some p ->
  CLMFile.contacts (storeMeasured r m) !! (m_ai m, m_bi m) =
    Some (if decide (m_meanDist m < Contact.meanDist p)%Z then contactOf m else p).
Proof.
  intros Hp. rewrite storeMeasured_same_key, Hp. unfold mergeContact.
  repeat case_decide; try done; lia.
Qed.

(** A store with no contig and no contact. *)
Definition emptyCLM {GArray : Type} : CLMFile.t GArray :=
  CLMFile.mk [] (Tour.mk [] []) ∅ ∅ ∅.

(** Three records of the contigs 0 and 1, the last one with the contigs in the
    opposite order. *)
Definition threeRecords : list (Measured unit) :=
  [ mkMeasured 0 1 "+" "+" 7 tt 10;
    mkMeasured 0 1 "+" "-" 3 tt 8;
    mkMeasured 1 0 "+" "+" 4 tt 5 ]%Z%char.

Lemma contacts_keep_first_smallest_witness :
  exists k m, withKey 0 1 threeRecords !! k = Some m /\
    CLMFile.contacts (fold_left storeMeasured threeRecords emptyCLM) !! (0%Z, 1%Z)
      = Some (contactOf m) /\
    (forall j m', withKey 0 1 threeRecords !! j = Some m' ->
       (m_meanDist m <= m_meanDist m')%Z) /\
    (forall j m', j < k -> withKey 0 1 threeRecords !! j = Some m' ->
       (m_meanDist m < m_meanDist m')%Z).
Proof.
  apply (contacts_keep_first_smallest emptyCLM threeRecords 0 1).
  - reflexivity.
  - discriminate.
Defined.

(** C4 fails as stated: the three records are over the same unordered pair of
    contigs and the smallest [meanDist] is 5, but the [Contact] stored for
    [(0, 1)] has [meanDist] 8; the record with [meanDist] 5 is stored apart,
    for [(1, 0)]. *)
Lemma contacts_keyed_by_ordered_pair :
  CLMFile.contacts (fold_left storeMeasured threeRecords emptyCLM) !! (0%Z, 1%Z)
    = Some (Contact.mk (-1) 3 8) /\
  CLMFile.contacts (fold_left storeMeasured threeRecords emptyCLM) !! (1%Z, 0%Z)
    = Some (Contact.mk 1 4 5).
Proof. split; reflexivity. Qed.

Section ParseFacts.
Context {GArray : Type}.
Variable GoldenArray : list Z -> GArray.
Variable HmeanInt : list Z -> Z -> Z -> Z.
Variables GRLB GRUB : Z.

(** A row whose two contigs are known is stored as a measured record. *)
Lemma parseRow_known (r : CLMFile.t GArray) (row : ClmRow)
    (at_ bt : string) (ao bo : ascii) (ai bi : Z) :
  splitLast (atig row) = Some (at_, ao) ->
  splitLast (btig row) = Some (bt, bo) ->
  CLMFile.tigToIdx r !! at_ = Some ai ->
  CLMFile.tigToIdx r !! bt = Some bi ->
  parseRow GoldenArray HmeanInt GRLB GRUB r row =
    Done (storeMeasured r
            (mkMeasured ai bi ao bo (row_nlinks row) (GoldenArray (dists row))
               (HmeanInt (dists row) GRLB GRUB))).
Proof. intros Ha Hb Hai Hbi. unfold parseRow. by rewrite Ha, Hb, Hai, Hbi. Qed.

Lemma storeRecord_oriented (r : CLMFile.t GArray) (ai bi : Z) (ao bo : ascii)
    (nlinks : Z) (gdists : GArray) (meanDist : Z) :
  CLMFile.orientedContacts (storeRecord r ai bi ao bo nlinks gdists meanDist)
    !! (ai, bi, ao, bo) = Some gdists /\
  CLMFile.orientedContacts (storeRecord r ai bi ao bo nlinks gdists meanDist)
    !! (bi, ai, rr bo, rr ao) = Some gdists.
Proof.
  unfold storeRecord. simpl. split; [|by rewrite lookup_insert_eq].
  rewrite lookup_insert. case_decide; [done|]. by rewrite lookup_insert_eq.
Qed.

End ParseFacts.

(** C6.  After a row of the clm file is ingested for the contigs [ai], [bi]
    with the orientations [ao], [bo], [orientedContacts] has the forward key
    [(ai, bi, ao, bo)] and the flipped reverse key [(bi, ai, rr bo, rr ao)],
    both with the histogram of the row. *)
Theorem parseRow_stores_both_orientations {GArray : Type}
    (GoldenArray : list Z -> GArray) (HmeanInt : list Z -> Z -> Z -> Z) (GRLB GRUB : Z)
    (r : CLMFile.t GArray) (row : ClmRow) (at_ bt : string) (ao bo : ascii) (ai bi : Z) :
  splitLast (atig row) = Some (at_, ao) ->
  splitLast (btig row) = Some (bt, bo) ->
  CLMFile.tigToIdx r !! at_ = Some ai ->
  CLMFile.tigToIdx r !! bt = Some bi ->
  exists r', parseRow GoldenArray HmeanInt GRLB GRUB r row = Done r' /\
    CLMFile.orientedContacts r' !! (ai, bi, ao, bo) = Some (GoldenArray (dists row)) /\
    CLMFile.orientedContacts r' !! (bi, ai, rr bo, rr ao) = Some (GoldenArray (dists row)).
Proof.
  intros Ha Hb Hai Hbi. eexists. split.
  - by apply (parseRow_known GoldenArray HmeanInt GRLB GRUB r row at_ bt ao bo ai bi).
  - apply storeRecord_oriented.
Qed.

(** A store that knows the contigs [tigA] and [tigB], and a row linking them. *)
Definition twoTigs : CLMFile.t (list Z) :=
  CLMFile.mk [TigF.mk 0 "tigA" 50000 true; TigF.mk 1 "tigB" 60000 true] (Tour.mk [] [])
    {[ "tigA"%string := 0%Z; "tigB"%string := 1%Z ]} ∅ ∅.

Definition rowAB : ClmRow := mkClmRow "tigA+" "tigB-" 2 [53173; 116050]%Z.

Lemma parseRow_stores_both_orientations_witness :
  exists r', parseRow (fun d => d) (fun d _ _ => hd 0%Z d) 0 0 twoTigs rowAB = Done r' /\
    CLMFile.orientedContacts r' !! (0%Z, 1%Z, "+"%char, "-"%char)
      = Some [53173; 116050]%Z /\
    CLMFile.orientedContacts r' !! (1%Z, 0%Z, rr "-"%char, rr "+"%char)
      = Some [53173; 116050]%Z.
Proof.
  apply (parseRow_stores_both_orientations (fun d => d) (fun d _ _ => hd 0%Z d) 0 0
           twoTigs rowAB "tigA" "tigB" "+" "-" 0 1); reflexivity.
Defined.

(** *** The two orientation keys over a whole file *)

Definition isSign (o : ascii) : Prop := o = "+"%char \/ o = "-"%char.

Lemma rr_sign (o : ascii) : isSign (rr o).
Proof. unfold rr, isSign. case_decide; eauto. Qed.

Lemma rr_involutive (o : ascii) : isSign o -> rr (rr o) = o.
Proof. by intros [-> | ->]. Qed.

Section Mirror.
Context {GArray : Type}.

(** Every key has orientations [+] or [-], and the flipped reverse of every
    key is a key with the same histogram. *)
Definition mirrored (oc : gmap OrientedPair GArray) : Prop :=
  forall ai bi ao bo g, oc !! (ai, bi, ao, bo) = Some g ->
    isSign ao /\ isSign bo /\ oc !! (bi, ai, rr bo, rr ao) = Some g.

Lemma storeRecord_mirrored (r : CLMFile.t GArray) (ai bi : Z) (ao bo : ascii)
    (nlinks : Z) (gdists : GArray) (meanDist : Z) :
  isSign ao -> isSign bo ->
  mirrored (CLMFile.orientedContacts r) ->
  mirrored (CLMFile.orientedContacts (storeRecord r ai bi ao bo nlinks gdists meanDist)).
Proof.
  intros Hao Hbo Hmir a' b' o1 o2 g' Hlook.
  destruct (storeRecord_oriented r ai bi ao bo nlinks gdists meanDist) as [Hfwd Hrev].
  destruct (decide ((a', b', o1, o2) = (bi, ai, rr bo, rr ao))) as [Heq|HneR].
  { injection Heq as -> -> -> ->. rewrite Hrev in Hlook. injection Hlook as <-.
    rewrite !rr_involutive by done. split; [apply rr_sign|]. split; [apply rr_sign|done]. }
  destruct (decide ((a', b', o1, o2) = (ai, bi, ao, bo))) as [Heq|HneK].
  { injection Heq as -> -> -> ->. rewrite Hfwd in Hlook. injection Hlook as <-. done. }
  unfold storeRecord in *. simpl in *.
  rewrite !lookup_insert_ne in Hlook by done.
  destruct (Hmir _ _ _ _ _ Hlook) as (Ho1 & Ho2 & Hold).
  split; [done|]. split; [done|].
  rewrite !lookup_insert_ne; [done| |].
  - intros [= -> -> Ha Hb]. apply HneR.
    by rewrite Ha, Hb, !rr_involutive.
  - intros [= -> -> Hb Ha]. apply HneK.
    apply (f_equal rr) in Ha, Hb. rewrite !rr_involutive in Ha, Hb by done.
    by rewrite Ha, Hb.
Qed.

End Mirror.

Section MirrorParse.
Context {GArray : Type}.
Variable GoldenArray : list Z -> GArray.
Variable HmeanInt : list Z -> Z -> Z -> Z.
Variables GRLB GRUB : Z.

(** The orientation bytes of a row are [+] or [-]. *)
Definition signedRow (row : ClmRow) : Prop :=
  forall s o, splitLast (atig row) = Some (s, o) \/ splitLast (btig row) = Some (s, o) ->
    isSign o.

Lemma parseRow_mirrored (r r' : CLMFile.t GArray) (row : ClmRow) :
  signedRow row ->
  parseRow GoldenArray HmeanInt GRLB GRUB r row = Done r' ->
  mirrored (CLMFile.orientedContacts r) ->
  mirrored (CLMFile.orientedContacts r') /\ CLMFile.tigToIdx r' = CLMFile.tigToIdx r.
Proof.
  intros Hsigned Hrun Hmir. unfold parseRow in Hrun.
  destruct (splitLast (atig row)) as [[at_ ao]|] eqn:Ha; [|done].
  destruct (splitLast (btig row)) as [[bt bo]|] eqn:Hb; [|done].
  destruct (CLMFile.tigToIdx r !! at_) as [ai|]; [|by injection Hrun as <-].
  destruct (CLMFile.tigToIdx r !! bt) as [bi|]; [|by injection Hrun as <-].
  injection Hrun as <-. split; [|done].
  apply storeRecord_mirrored; [..|done].
  - apply (Hsigned at_). by left.
  - apply (Hsigned bt). by right.
Qed.

(** Over a whole file of [+]/[-] rows, read into a store without oriented
    contacts, every key of [orientedContacts] has its flipped reverse key,
    with the same histogram. *)
Lemma ParseClm_mirrored (rows : list ClmRow) (r r' : CLMFile.t GArray) :
  Forall signedRow rows ->
  mirrored (CLMFile.orientedContacts r) ->
  ParseClm GoldenArray HmeanInt GRLB GRUB r rows = Done r' ->
  mirrored (CLMFile.orientedContacts r').
Proof.
  unfold ParseClm. revert r. induction rows as [|row rows IH]; intros r Hrows Hmir Hrun.
  - by injection Hrun as <-.
  - apply Forall_cons in Hrows as [Hrow Hrows]. rewrite foldM_cons in Hrun.
    destruct (parseRow GoldenArray HmeanInt GRLB GRUB r row) as [r1| |] eqn:Hstep; [|done..].
    rewrite bind_Done in Hrun.
    destruct (parseRow_mirrored r r1 row Hrow Hstep Hmir) as [Hmir1 _]. eauto.
Qed.

End MirrorParse.

(** *** ParseClm as a fold *)

Section ParseFold.
Context {GArray : Type}.
Variable GoldenArray : list Z -> GArray.
Variable HmeanInt : list Z -> Z -> Z -> Z.
Variables GRLB GRUB : Z.

(** The measured record of a row, when its two contigs are in [tigToIdx]. *)
Definition measureRow (tigToIdx : gmap string Z) (row : ClmRow) : option (Measured GArray) :=
  match splitLast (atig row), splitLast (btig row) with
  | Some (at_, ao), Some (bt, bo) =>
      match tigToIdx !! at_, tigToIdx !! bt with
      | Some ai, Some bi =>
          Some (mkMeasured ai bi ao bo (row_nlinks row) (GoldenArray (dists row))
                  (HmeanInt (dists row) GRLB GRUB))
      | _, _ => None
      end
  | _, _ => None
  end.

(** The names of a row are not empty, so [atig[len(atig)-1]] is in range. *)
Definition namedRow (row : ClmRow) : Prop :=
  atig row <> EmptyString /\ btig row <> EmptyString.

Lemma splitLast_Some (s : string) : s <> EmptyString -> is_Some (splitLast s).
Proof.
  induction s as [|ch rest IH]; [done|]. intros _. simpl.
  destruct rest as [|ch' rest']; [by eexists|].
  destruct IH as [[init l] Hrest]; [done|]. rewrite Hrest. by eexists.
Qed.

Lemma parseRow_measure (r : CLMFile.t GArray) (row : ClmRow) :
  namedRow row ->
  parseRow GoldenArray HmeanInt GRLB GRUB r row =
    Done (match measureRow (CLMFile.tigToIdx r) row with
          | Some m => storeMeasured r m
          | None => r
          end).
Proof.
  intros [Ha Hb]. unfold parseRow, measureRow.
  destruct (splitLast_Some _ Ha) as [[at_ ao] ->].
  destruct (splitLast_Some _ Hb) as [[bt bo] ->].
  destruct (CLMFile.tigToIdx r !! at_) as [ai|]; [|done].
  by destruct (CLMFile.tigToIdx r !! bt) as [bi|].
Qed.

(** [ParseClm] stores the measured records of the rows it does not skip, in
    the order of the file. *)
Lemma ParseClm_fold (rows : list ClmRow) (r : CLMFile.t GArray) :
  Forall namedRow rows ->
  ParseClm GoldenArray HmeanInt GRLB GRUB r rows =
    Done (fold_left storeMeasured (omap (measureRow (CLMFile.tigToIdx r)) rows) r).
Proof.
  unfold ParseClm. revert r. induction rows as [|row rows IH]; intros r Hrows; [done|].
  apply Forall_cons in Hrows as [Hrow Hrows].
  rewrite foldM_cons, (parseRow_measure r row Hrow), bind_Done. cbn [omap list_omap].
  destruct (measureRow (CLMFile.tigToIdx r) row) as [m|]; by rewrite IH.
Qed.

End ParseFold.

(** ** The pruning passes *)

(** A contig before and after a pass: nothing but the active flag changes, and
    an inactive contig stays inactive. *)
Definition neverReactivated (tig tig' : TigF.t) : Prop :=
  TigF.Idx tig' = TigF.Idx tig /\ TigF.Name tig' = TigF.Name tig /\
  TigF.Size tig' = TigF.Size tig /\
  (TigF.IsActive tig = false -> TigF.IsActive tig' = false).

Definition deactivatesOnly (before after : list TigF.t) : Prop :=
  Forall2 neverReactivated before after.

(** A property of the result of a call that returns. *)
Definition whenDone {A : Type} (P : A -> Prop) (res : result A) : Prop :=
  match res with
  | Done x => P x
  | _ => True
  end.

Lemma neverReactivated_refl (tig : TigF.t) : neverReactivated tig tig.
Proof. by repeat split. Qed.

Lemma neverReactivated_deactivate (tig : TigF.t) : neverReactivated tig (deactivate tig).
Proof. by repeat split. Qed.

Lemma neverReactivated_trans (t1 t2 t3 : TigF.t) :
  neverReactivated t1 t2 -> neverReactivated t2 t3 -> neverReactivated t1 t3.
Proof.
  intros (? & ? & ? & H12) (? & ? & ? & H23).
  repeat split; [congruence..|auto].
Qed.

Lemma deactivatesOnly_refl (Tigs : list TigF.t) : deactivatesOnly Tigs Tigs.
Proof. apply Forall2_same_length_lookup. split; [done|]. intros i x y Hx Hy. simplify_eq. apply neverReactivated_refl. Qed.

Lemma deactivatesOnly_trans (l1 l2 l3 : list TigF.t) :
  deactivatesOnly l1 l2 -> deactivatesOnly l2 l3 -> deactivatesOnly l1 l3.
Proof.
  unfold deactivatesOnly. revert l2 l3.
  induction l1 as [|t1 l1 IH]; intros l2 l3 H12 H23.
  - apply Forall2_nil_inv_l in H12 as ->. by apply Forall2_nil_inv_l in H23 as ->.
  - apply Forall2_cons_inv_l in H12 as (t2 & l2' & Ht12 & H12 & ->).
    apply Forall2_cons_inv_l in H23 as (t3 & l3' & Ht23 & H23 & ->).
    constructor; [by eapply neverReactivated_trans|by eapply IH].
Qed.

Lemma update_deactivate (Tigs Tigs' : list TigF.t) (i : Z) :
  update Tigs i deactivate = Done Tigs' -> deactivatesOnly Tigs Tigs'.
Proof.
  unfold update, index. case_decide; [|done].
  destruct (Tigs !! Z.to_nat i) as [x|] eqn:Hx; [|done].
  intros [= <-]. apply Forall2_same_length_lookup. split; [by rewrite length_insert|].
  intros j tig tig' Hj Hj'.
  destruct (decide (j = Z.to_nat i)) as [->|Hne].
  - rewrite list_lookup_insert_eq in Hj' by (by eapply lookup_lt_Some).
    simplify_eq. apply neverReactivated_deactivate.
  - rewrite list_lookup_insert_ne in Hj' by done. simplify_eq. apply neverReactivated_refl.
Qed.

Lemma foldM_invariant {A S : Type} (f : S -> A -> result S) (P : S -> Prop) (l : list A) :
  (forall s x s', P s -> f s x = Done s' -> P s') ->
  forall s s', P s -> foldM f l s = Done s' -> P s'.
Proof.
  intros Hstep. induction l as [|x l IH]; intros s s' Hs Hrun.
  - by simplify_eq/=.
  - rewrite foldM_cons in Hrun. destruct (f s x) as [s1| |] eqn:Hf; [|done..].
    rewrite bind_Done in Hrun. eauto.
Qed.

Section PruningFacts.
Context {GArray : Type}.
Variable Log : float -> float.
Variable OutlierCutoff : list float -> float * float.
Variable MINSIZE : Z.
Variable Evaluate : Tour.t -> float.

Lemma pruneBySize_deactivatesOnly (r : CLMFile.t GArray) :
  deactivatesOnly (CLMFile.Tigs r) (CLMFile.Tigs (pruneBySize MINSIZE r)).
Proof.
  unfold pruneBySize. simpl. apply Forall2_fmap_r, Forall2_same_length_lookup.
  split; [done|]. intros i x y Hx Hy. simplify_eq. simpl.
  destruct (bool_decide _); [apply neverReactivated_deactivate|apply neverReactivated_refl].
Qed.

Lemma densityFilter_deactivatesOnly (logdensities : list float) (lb : float)
    (Tigs : list TigF.t) :
  deactivatesOnly Tigs (densityFilter MINSIZE logdensities lb Tigs).
Proof.
  apply Forall2_same_length_lookup. unfold densityFilter. split; [by rewrite length_imap|].
  intros i x y Hx Hy. rewrite list_lookup_imap, Hx in Hy. simpl in Hy. injection Hy as <-.
  destruct (_ && _); [apply neverReactivated_deactivate|apply neverReactivated_refl].
Qed.

Lemma pruneByDensity_deactivatesOnly (r : CLMFile.t GArray) :
  whenDone (fun r' => deactivatesOnly (CLMFile.Tigs r) (CLMFile.Tigs r'))
    (pruneByDensity Log OutlierCutoff MINSIZE r).
Proof.
  unfold pruneByDensity. destruct (calculateDensities Log r) as [logdensities| |]; [|done..].
  rewrite bind_Done. destruct (OutlierCutoff logdensities) as [lb ub]. simpl.
  apply densityFilter_deactivatesOnly.
Qed.

Lemma deactivateOutliers_deactivatesOnly (log10ds : list float) (lb : float)
    (tourTigs : list Tig.t) (Tigs Tigs' : list TigF.t) (invalid : Z) :
  deactivateOutliers log10ds lb tourTigs Tigs = Done (Tigs', invalid) ->
  deactivatesOnly Tigs Tigs'.
Proof.
  unfold deactivateOutliers. intros Hrun.
  apply (foldM_invariant _ (fun st => deactivatesOnly Tigs st.1) _) in Hrun;
    [done| |apply deactivatesOnly_refl].
  intros [T inv] [i tig] [T' inv'] HT Hstep. simpl in *.
  destruct (Float64.lt _ lb); [|by injection Hstep as <- <-].
  destruct (update T (Tig.Idx tig) deactivate) as [T1| |] eqn:Hup; [|done..].
  rewrite bind_Done in Hstep. injection Hstep as <- <-.
  eapply deactivatesOnly_trans; [done|by eapply update_deactivate].
Qed.

Lemma pruneRound_deactivatesOnly (r : CLMFile.t GArray) :
  whenDone (fun rm => deactivatesOnly (CLMFile.Tigs r) (CLMFile.Tigs rm.1))
    (pruneRound Log OutlierCutoff Evaluate r).
Proof.
  unfold pruneRound. destruct (OutlierCutoff _) as [lb ub].
  destruct (deactivateOutliers _ lb _ _) as [[Tigs invalid]| |] eqn:Hde; [|done..].
  rewrite bind_Done. apply deactivateOutliers_deactivatesOnly in Hde.
  case_decide; [done|].
  by destruct (activeMembers Tigs _) as [members| |].
Qed.

Lemma pruneTour_deactivatesOnly (r : CLMFile.t GArray) :
  whenDone (fun r' => deactivatesOnly (CLMFile.Tigs r) (CLMFile.Tigs r'))
    (pruneTour Log OutlierCutoff Evaluate r).
Proof.
  unfold pruneTour. pose proof (pruneRound_deactivatesOnly r) as H1.
  destruct (pruneRound Log OutlierCutoff Evaluate r) as [[r1 more]| |]; [|done..].
  rewrite bind_Done. simpl in H1. destruct more; [|done].
  pose proof (pruneRound_deactivatesOnly r1) as H2.
  destruct (pruneRound Log OutlierCutoff Evaluate r1) as [[r2 more2]| |]; [|done..].
  rewrite bind_Done. simpl in *. by eapply deactivatesOnly_trans.
Qed.

End PruningFacts.

(** C7.  [pruneBySize], [pruneByDensity] and [pruneTour] change nothing of a
    contig but its active flag, and a contig that is inactive before the pass
    is inactive after it: the flag only ever goes from true to false. *)
Theorem pruning_only_deactivates {GArray : Type} (Log : float -> float)
    (OutlierCutoff : list float -> float * float) (MINSIZE : Z)
    (Evaluate : Tour.t -> float) (r : CLMFile.t GArray) :
  deactivatesOnly (CLMFile.Tigs r) (CLMFile.Tigs (pruneBySize MINSIZE r)) /\
  whenDone (fun r' => deactivatesOnly (CLMFile.Tigs r) (CLMFile.Tigs r'))
    (pruneByDensity Log OutlierCutoff MINSIZE r) /\
  whenDone (fun r' => deactivatesOnly (CLMFile.Tigs r) (CLMFile.Tigs r'))
    (pruneTour Log OutlierCutoff Evaluate r).
Proof.
  split; [apply pruneBySize_deactivatesOnly|].
  split; [apply pruneByDensity_deactivatesOnly|apply pruneTour_deactivatesOnly].
Qed.

(** In particular, position by position. *)
Lemma deactivatesOnly_lookup (before after : list TigF.t) (i : nat) (tig : TigF.t) :
  deactivatesOnly before after -> before !! i = Some tig ->
  exists tig', after !! i = Some tig' /\
    (TigF.IsActive tig = false -> TigF.IsActive tig' = false).
Proof.
  intros Hfa Hi. destruct (Forall2_lookup_l _ _ _ _ _ Hfa Hi) as (tig' & Hi' & Hn).
  exists tig'. split; [done|]. apply Hn.
Qed.

(** ** The log-delta vector of a round *)


(** [math.Log10] of an exact power of two does not call [math.Log]. *)
Example Log10_half (Log : float -> float) :
  Log10 Log 0.5 = (-0x1.34413509f79ffp-2)%float.
Proof. vm_compute. reflexivity. Qed.

Example Log10_one (Log : float -> float) : Log10 Log 1 = 0%float.
Proof. vm_compute. reflexivity. Qed.

Example Log10_two (Log : float -> float) : Log10 Log 2 = 0x1.34413509f79ffp-2%float.
Proof. vm_compute. reflexivity. Qed.

(** A tour of two contigs, and two evaluators: under [halfCost] the cost of a
    tour is minus half its length, under [halfGain] it is half its length. *)
Definition twoTour : Tour.t := Tour.mk [Tig.mk 0 50000; Tig.mk 1 60000] [].

Definition halfCost (tour : Tour.t) : float :=
  (- (0.5 * Float64.ofInt (Z.of_nat (length (Tour.Tigs tour)))))%float.

Definition halfGain (tour : Tour.t) : float :=
  (0.5 * Float64.ofInt (Z.of_nat (length (Tour.Tigs tour))))%float.



(** A run of [pruneTour]: three contigs, the evaluation of a tour is minus the
    sum of the sizes of its members, so the delta of a position is the size
    of its contig, and the cutoff is fixed at 1.  The contig of size 4 is the
    only one below it; the second round removes nothing. *)
Definition sizeCost (tour : Tour.t) : float :=
  (- Float64.ofInt (foldr Z.add 0%Z (Tig.Size <$> Tour.Tigs tour)))%float.

Definition threeTigs : CLMFile.t unit :=
  CLMFile.mk
    [TigF.mk 0 "tigA" 1024 true; TigF.mk 1 "tigB" 4 true; TigF.mk 2 "tigC" 2048 true]
    (Tour.mk [Tig.mk 0 1024; Tig.mk 1 4; Tig.mk 2 2048] [])
    ∅ ∅ ∅.

Example pruneTour_threeTigs (Log : float -> float) :
  exists r', pruneTour Log (fun _ => (1%float, 5%float)) sizeCost threeTigs = Done r' /\
    TigF.IsActive <$> CLMFile.Tigs r' = [true; false; true] /\
    Tour.Tigs (CLMFile.Tour r') = [Tig.mk 0 1024; Tig.mk 2 2048].
Proof. eexists. split; [vm_compute; reflexivity|]. split; reflexivity. Qed.

(** A tour entry whose [Idx] is not an index of [r.Tigs] makes the pass panic. *)
Example pruneTour_panics (Log : float -> float) :
  pruneTour Log (fun _ => (1%float, 5%float)) sizeCost
    (CLMFile.mk [TigF.mk 0 "tigA" 4 true] (Tour.mk [Tig.mk 7 4] []) ∅ ∅ (∅ : gmap OrientedPair unit))
    = Panic.
Proof. vm_compute. reflexivity. Qed.

(** ** The pruning passes return *)

Lemma index_total {A : Type} (s : list A) (i : Z) :
  (0 <= i < Z.of_nat (length s))%Z -> exists x, index s i = Done x.
Proof.
  intros Hi. unfold index. rewrite decide_True by lia.
  destruct (lookup_lt_is_Some_2 s (Z.to_nat i)) as [x ->]; [lia|]. eauto.
Qed.

Lemma update_total {A : Type} (s : list A) (i : Z) (f : A -> A) :
  (0 <= i < Z.of_nat (length s))%Z ->
  exists s', update s i f = Done s' /\ length s' = length s.
Proof.
  intros Hi. unfold update. destruct (index_total s i Hi) as [x ->].
  rewrite bind_Done. eexists. split; [done|]. by rewrite length_insert.
Qed.

Lemma foldM_total {A S : Type} (f : S -> A -> result S) (P : S -> Prop) (l : list A) :
  (forall s x, P s -> x ∈ l -> exists s', f s x = Done s' /\ P s') ->
  forall s, P s -> exists s', foldM f l s = Done s' /\ P s'.
Proof.
  induction l as [|x l IH]; intros Hstep s Hs.
  - exists s. done.
  - destruct (Hstep s x Hs) as (s1 & Hf & Hs1); [apply list_elem_of_here|].
    rewrite foldM_cons, Hf, bind_Done. apply IH; [|done].
    intros s2 y Hs2 Hy. apply Hstep; [done|]. by apply list_elem_of_further.
Qed.

(** Every entry of the tour names a contig of [r.Tigs]. *)
Definition tourInRange (Tigs : list TigF.t) (tourTigs : list Tig.t) : Prop :=
  forall tig, tig ∈ tourTigs -> (0 <= Tig.Idx tig < Z.of_nat (length Tigs))%Z.

Section PruningTotal.
Context {GArray : Type}.
Variable Log : float -> float.
Variable OutlierCutoff : list float -> float * float.
Variable MINSIZE : Z.
Variable Evaluate : Tour.t -> float.

Lemma deactivateOutliers_total (log10ds : list float) (lb : float)
    (tourTigs : list Tig.t) (Tigs : list TigF.t) :
  tourInRange Tigs tourTigs ->
  exists Tigs' invalid,
    deactivateOutliers log10ds lb tourTigs Tigs = Done (Tigs', invalid) /\
    length Tigs' = length Tigs.
Proof.
  intros Hin. unfold deactivateOutliers.
  destruct (foldM_total
    (fun (st : list TigF.t * Z) (itig : nat * Tig.t) =>
       let '(Tigs, invalid) := st in
       let '(i, tig) := itig in
       if Float64.lt (default 0%float (log10ds !! i)) lb
       then Tigs ← update Tigs (Tig.Idx tig) deactivate; Done (Tigs, wrapInt (invalid + 1))
       else Done (Tigs, invalid))
    (fun st => length st.1 = length Tigs) (imap pair tourTigs)) with (Tigs, 0%Z)
    as ([Tigs' invalid] & Hrun & Hlen); [|done|by eauto].
  intros [T inv] [i tig] HT Hitig. simpl in HT.
  apply list_elem_of_lookup_1 in Hitig as [j Hj].
  rewrite list_lookup_imap in Hj.
  destruct (tourTigs !! j) as [tig'|] eqn:Htig; simplify_eq/=.
  destruct (Float64.lt _ lb); [|by eexists].
  destruct (update_total T (Tig.Idx tig) deactivate) as (T' & -> & HT').
  { rewrite HT. apply Hin. by eapply list_elem_of_lookup_2. }
  rewrite bind_Done. eexists. split; [done|]. simpl. congruence.
Qed.

Lemma activeMembers_total (Tigs : list TigF.t) (tourTigs : list Tig.t) :
  tourInRange Tigs tourTigs ->
  exists members, activeMembers Tigs tourTigs = Done members /\ members ⊆ tourTigs.
Proof.
  intros Hin. unfold activeMembers.
  destruct (foldM_total
    (fun (kept : list Tig.t) (tig : Tig.t) =>
       tigF ← index Tigs (Tig.Idx tig);
       Done (if TigF.IsActive tigF then kept ++ [tig] else kept))
    (fun kept => kept ⊆ tourTigs) tourTigs) with ([] : list Tig.t)
    as (members & Hrun & Hsub); [| |by eauto].
  - intros kept tig Hkept Htig.
    destruct (index_total Tigs (Tig.Idx tig)) as [tigF ->]; [by apply Hin|].
    rewrite bind_Done. eexists. split; [done|].
    destruct (TigF.IsActive tigF); [|done].
    intros x Hx. apply elem_of_app in Hx as [Hx|Hx]; [by apply Hkept|].
    apply list_elem_of_singleton in Hx as ->. done.
  - intros x Hx. by apply elem_of_nil in Hx.
Qed.

Lemma pruneRound_total (r : CLMFile.t GArray) :
  tourInRange (CLMFile.Tigs r) (Tour.Tigs (CLMFile.Tour r)) ->
  exists r' more, pruneRound Log OutlierCutoff Evaluate r = Done (r', more) /\
    tourInRange (CLMFile.Tigs r') (Tour.Tigs (CLMFile.Tour r')).
Proof.
  intros Hin. unfold pruneRound. destruct (OutlierCutoff _) as [lb ub].
  destruct (deactivateOutliers_total (log10dsOf Log Evaluate (CLMFile.Tour r)) lb _ _ Hin)
    as (Tigs' & invalid & -> & Hlen).
  rewrite bind_Done. case_decide.
  - eexists _, _. split; [done|]. simpl. intros tig Htig. rewrite Hlen. by apply Hin.
  - destruct (activeMembers_total Tigs' (Tour.Tigs (CLMFile.Tour r)))
      as (members & -> & Hsub).
    { intros tig Htig. rewrite Hlen. by apply Hin. }
    rewrite bind_Done. eexists _, _. split; [done|]. simpl.
    intros tig Htig. rewrite Hlen. by apply Hin, Hsub.
Qed.

(** [pruneTour] returns when the tour names contigs of [r.Tigs] only. *)
Lemma pruneTour_total (r : CLMFile.t GArray) :
  tourInRange (CLMFile.Tigs r) (Tour.Tigs (CLMFile.Tour r)) ->
  exists r', pruneTour Log OutlierCutoff Evaluate r = Done r'.
Proof.
  intros Hin. unfold pruneTour.
  destruct (pruneRound_total r Hin) as (r1 & more & -> & Hin1).
  rewrite bind_Done. destruct more; [|by eexists].
  destruct (pruneRound_total r1 Hin1) as (r2 & more2 & -> & _).
  rewrite bind_Done. by eexists.
Qed.

Lemma linkCounts_total (N : nat) (contacts : gmap Pair Contact.t) :
  (forall ai bi c, contacts !! (ai, bi) = Some c ->
     (0 <= ai < Z.of_nat N)%Z /\ (0 <= bi < Z.of_nat N)%Z) ->
  exists densities, linkCounts N contacts = Done densities /\ length densities = N.
Proof.
  intros Hin. unfold linkCounts.
  destruct (foldM_total
    (fun (densities : list Z) (pc : Pair * Contact.t) =>
       let '((ai, bi), contact) := pc in
       densities ← update densities ai (fun d => wrapInt (d + Contact.nlinks contact));
       update densities bi (fun d => wrapInt (d + Contact.nlinks contact)))
    (fun densities => length densities = N) (map_to_list contacts)) with (replicate N 0%Z)
    as (densities & Hrun & Hlen); [|by rewrite length_replicate|by eauto].
  intros densities [[ai bi] c] Hd Hpc. apply elem_of_map_to_list in Hpc.
  destruct (Hin ai bi c Hpc) as [Hai Hbi].
  destruct (update_total densities ai (fun d => wrapInt (d + Contact.nlinks c)))
    as (d1 & -> & Hd1); [lia|].
  rewrite bind_Done.
  destruct (update_total d1 bi (fun d => wrapInt (d + Contact.nlinks c)))
    as (d2 & -> & Hd2); [lia|].
  eexists. split; [done|]. congruence.
Qed.

(** [pruneByDensity] returns when the contacts name contigs of [r.Tigs] only. *)
Lemma pruneByDensity_total (r : CLMFile.t GArray) :
  (forall ai bi c, CLMFile.contacts r !! (ai, bi) = Some c ->
     (0 <= ai < Z.of_nat (length (CLMFile.Tigs r)))%Z /\
     (0 <= bi < Z.of_nat (length (CLMFile.Tigs r)))%Z) ->
  exists r', pruneByDensity Log OutlierCutoff MINSIZE r = Done r'.
Proof.
  intros Hin. unfold pruneByDensity, calculateDensities.
  destruct (linkCounts_total _ _ Hin) as (densities & -> & _).
  rewrite !bind_Done. destruct (OutlierCutoff _). by eexists.
Qed.

End PruningTotal.

(** ** The parallel region of a round *)

#[global] Instance GoPc_eq_dec : EqDecision GoPc.
Proof. solve_decision. Defined.

(** The goroutines that have not run [wg.Done()] yet. *)
Definition pending (gs : list (nat * GoPc)) : Z :=
  Z.of_nat (length (filter (fun g => g.2 <> Exited) gs)).

Lemma pending_app (gs gs' : list (nat * GoPc)) :
  pending (gs ++ gs') = (pending gs + pending gs')%Z.
Proof. unfold pending. rewrite filter_app, length_app. lia. Qed.

Lemma pending_insert (gs : list (nat * GoPc)) (g idx : nat) (pc pc' : GoPc) :
  gs !! g = Some (idx, pc) ->
  pending (<[g := (idx, pc')]> gs) =
    (pending gs - (if decide (pc = Exited) then 0 else 1)
                + (if decide (pc' = Exited) then 0 else 1))%Z.
Proof.
  intros Hg. pose proof (lookup_lt_Some _ _ _ Hg) as Hlt.
  rewrite insert_take_drop by done.
  rewrite <- (take_drop_middle gs g (idx, pc) Hg) at 3.
  rewrite !pending_app.
  change ((idx, pc') :: drop (S g) gs) with ([(idx, pc')] ++ drop (S g) gs).
  change ((idx, pc) :: drop (S g) gs) with ([(idx, pc)] ++ drop (S g) gs).
  rewrite !pending_app. unfold pending at 2 5.
  rewrite !filter_cons, !filter_nil. simpl.
  repeat case_decide; simpl; try done; lia.
Qed.

Lemma pending_zero_exited (gs : list (nat * GoPc)) (g idx : nat) (pc : GoPc) :
  pending gs = 0%Z -> gs !! g = Some (idx, pc) -> pc = Exited.
Proof.
  unfold pending. intros Hzero Hg.
  destruct (decide (pc = Exited)) as [|Hne]; [done|].
  assert ((idx, pc) ∈ filter (fun g => g.2 <> Exited) gs) as Hin.
  { apply list_elem_of_filter. split; [done|]. by eapply list_elem_of_lookup_2. }
  destruct (filter _ gs); [by apply elem_of_nil in Hin|simpl in Hzero; lia].
Qed.

Section RoundFacts.
Variable n : nat.
Variable value : nat -> float.

(** What holds of the counter and of the goroutines at each point of the main
    goroutine. *)
Definition mainInv (s : RoundState) : Prop :=
  match mainPc s with
  | LoopTest i => length (goroutines s) = i /\ i <= n /\ wg s = pending (goroutines s)
  | Added i => length (goroutines s) = i /\ i < n /\ wg s = (pending (goroutines s) + 1)%Z
  | AtWait => length (goroutines s) = n /\ wg s = pending (goroutines s)
  | AtCutoff | AfterCutoff =>
      length (goroutines s) = n /\ wg s = 0%Z /\ pending (goroutines s) = 0%Z
  end.

Definition roundInv (s : RoundState) : Prop :=
  length (log10ds s) = n /\
  mainInv s /\
  (forall g idx pc, goroutines s !! g = Some (idx, pc) -> idx = g) /\
  (forall g idx pc, goroutines s !! g = Some (idx, pc) -> pc <> Running ->
     log10ds s !! idx = Some (value idx)) /\
  (forall v, observed s = Some v -> mainPc s = AfterCutoff /\ v = log10ds s).

Lemma roundInv_init : roundInv (roundInit n).
Proof.
  unfold roundInv, mainInv, roundInit. simpl.
  split; [by rewrite length_replicate|]. split; [repeat split; lia|].
  repeat split; done.
Qed.

Lemma roundInv_step (act : Action) (s s' : RoundState) :
  roundInv s -> roundStep n value act s = Some s' -> roundInv s'.
Proof.
  intros (Hlen & Hmain & Hidx & Hval & Hobs) Hstep.
  destruct s as [pc w gs ds obs]. unfold roundStep in Hstep. simpl in *.
  destruct act as [|g].
  - (* the main goroutine *)
    unfold mainInv in Hmain. simpl in Hmain. destruct pc as [i|i| | |].
    + destruct Hmain as (Hgs & Hi & Hw). case_decide; simplify_eq/=.
      * split; [done|]. split; [unfold mainInv; simpl; repeat split; lia|].
        split; [done|]. split; [done|].
        intros v' Hv. by destruct (Hobs v' Hv).
      * split; [done|]. split; [unfold mainInv; simpl; repeat split; lia|].
        split; [done|]. split; [done|].
        intros v' Hv. by destruct (Hobs v' Hv).
    + destruct Hmain as (Hgs & Hi & Hw). simplify_eq/=.
      split; [done|]. split; [|split; [|split]].
      * unfold mainInv. simpl. rewrite length_app, pending_app. simpl.
        unfold pending at 2. simpl. repeat split; lia.
      * intros g idx pc Hg. apply lookup_app_Some in Hg as [Hg|[Hge Hg]]; [eauto|].
        apply list_lookup_singleton_Some in Hg as [Hz [= <- <-]]. lia.
      * intros g idx pc Hg Hpc. apply lookup_app_Some in Hg as [Hg|[Hge Hg]]; [eauto|].
        apply list_lookup_singleton_Some in Hg as [Hz [= <- <-]]. done.
      * intros v' Hv. by destruct (Hobs v' Hv).
    + destruct Hmain as (Hgs & Hw). case_decide; simplify_eq/=.
      split; [done|]. split; [unfold mainInv; simpl; repeat split; lia|].
      split; [done|]. split; [done|].
      intros v' Hv. by destruct (Hobs v' Hv).
    + destruct Hmain as (Hgs & Hw & Hp). simplify_eq/=.
      split; [done|]. split; [unfold mainInv; simpl; repeat split; lia|].
      split; [done|]. split; [done|].
      by intros v' [= <-].
    + done.
  - (* a started goroutine *)
    destruct (gs !! g) as [[idx pcg]|] eqn:Hg; [|done].
    pose proof (Hidx g idx pcg Hg) as ->.
    destruct pcg; [| |done]; simplify_eq/=.
    + (* the assignment to the slot *)
      assert (pending (<[g := (g, Written)]> gs) = pending gs) as Hpend.
      { rewrite (pending_insert gs g g Running Written Hg).
        repeat case_decide; try done; lia. }
      assert (pc <> AtCutoff /\ pc <> AfterCutoff) as [Hc1 Hc2].
      { unfold mainInv in Hmain. simpl in Hmain.
        split; intros ->; destruct Hmain as (_ & _ & Hp);
          by pose proof (pending_zero_exited gs g g Running Hp Hg). }
      unfold roundInv. simpl.
      split; [by rewrite length_insert|]. split; [|split; [|split]].
      * unfold mainInv in *. simpl in *. rewrite length_insert, Hpend. done.
      * intros g' idx' pc' Hg'. destruct (decide (g' = g)) as [->|Hne].
        -- rewrite list_lookup_insert_eq in Hg' by (by eapply lookup_lt_Some).
           by simplify_eq.
        -- rewrite list_lookup_insert_ne in Hg' by done. eauto.
      * intros g' idx' pc' Hg' Hpc'. destruct (decide (g' = g)) as [->|Hne].
        -- rewrite list_lookup_insert_eq in Hg' by (by eapply lookup_lt_Some).
           simplify_eq. apply list_lookup_insert_eq.
           rewrite Hlen. apply lookup_lt_Some in Hg.
           unfold mainInv in Hmain. simpl in Hmain.
           destruct pc; try done; lia.
        -- rewrite list_lookup_insert_ne in Hg' by done.
           pose proof (Hidx g' idx' pc' Hg') as ->.
           rewrite list_lookup_insert_ne by done. eauto.
      * intros v Hv. destruct (Hobs v Hv) as [-> _]. done.
    + (* the deferred wg.Done() *)
      assert (pending (<[g := (g, Exited)]> gs) = (pending gs - 1)%Z) as Hpend.
      { rewrite (pending_insert gs g g Written Exited Hg).
        repeat case_decide; try done; lia. }
      assert (pc <> AtCutoff /\ pc <> AfterCutoff) as [Hc1 Hc2].
      { unfold mainInv in Hmain. simpl in Hmain.
        split; intros ->; destruct Hmain as (_ & _ & Hp);
          by pose proof (pending_zero_exited gs g g Written Hp Hg). }
      unfold roundInv. simpl.
      split; [done|]. split; [|split; [|split]].
      * unfold mainInv in *. simpl in *. rewrite length_insert, Hpend.
        destruct pc; try done; repeat split; try lia.
      * intros g' idx' pc' Hg'. destruct (decide (g' = g)) as [->|Hne].
        -- rewrite list_lookup_insert_eq in Hg' by (by eapply lookup_lt_Some).
           by simplify_eq.
        -- rewrite list_lookup_insert_ne in Hg' by done. eauto.
      * intros g' idx' pc' Hg' Hpc'. destruct (decide (g' = g)) as [->|Hne].
        -- rewrite list_lookup_insert_eq in Hg' by (by eapply lookup_lt_Some).
           simplify_eq. eapply Hval; [eassumption|done].
        -- rewrite list_lookup_insert_ne in Hg' by done. eauto.
      * intros v Hv. destruct (Hobs v Hv) as [-> _]. done.
Qed.

Lemma roundInv_run (sched : list Action) (s s' : RoundState) :
  roundInv s -> roundRun n value sched s = Some s' -> roundInv s'.
Proof.
  revert s. induction sched as [|act sched IH]; intros s Hinv Hrun; simpl in Hrun.
  - by simplify_eq.
  - destruct (roundStep n value act s) as [s1|] eqn:Hstep; [|done].
    eauto using roundInv_step.
Qed.

(** Once the main goroutine is past [wg.Wait()], every slot holds its value. *)
Lemma roundInv_complete (s : RoundState) :
  roundInv s -> mainPc s = AtCutoff \/ mainPc s = AfterCutoff ->
  log10ds s = value <$> seq 0 n.
Proof.
  intros (Hlen & Hmain & Hidx & Hval & _) Hpc.
  assert (length (goroutines s) = n /\ pending (goroutines s) = 0%Z) as [Hgs Hp].
  { unfold mainInv in Hmain.
    destruct Hpc as [Hpc|Hpc]; rewrite Hpc in Hmain; by destruct Hmain as (? & ? & ?). }
  apply list_eq. intros idx. rewrite list_lookup_fmap.
  destruct (decide (idx < n)) as [Hlt|Hge].
  - rewrite lookup_seq_lt by done. simpl.
    destruct (lookup_lt_is_Some_2 (goroutines s) idx) as [[idx' pc] Hg]; [lia|].
    pose proof (Hidx _ _ _ Hg) as ->.
    eapply Hval; [done|]. by rewrite (pending_zero_exited _ _ _ _ Hp Hg).
  - rewrite lookup_seq_ge by lia. simpl. apply lookup_ge_None. lia.
Qed.

End RoundFacts.

Lemma log10dsOf_seq (Log : float -> float) (Evaluate : Tour.t -> float) (tour : Tour.t) :
  log10dsOf Log Evaluate tour =
    slotValue Log Evaluate tour <$> seq 0 (length (Tour.Tigs tour)).
Proof.
  unfold log10dsOf. apply list_eq. intros idx.
  rewrite list_lookup_imap, list_lookup_fmap.
  destruct (decide (idx < length (Tour.Tigs tour))) as [Hlt|Hge].
  - rewrite lookup_seq_lt by done.
    by destruct (lookup_lt_is_Some_2 _ _ Hlt) as [tig ->].
  - rewrite lookup_seq_ge by lia. by rewrite (proj2 (lookup_ge_None _ _)) by lia.
Qed.

(** C9.  In a round of [pruneTour] over [tour], under every schedule of the
    main goroutine and of the goroutines it starts, the vector that
    [OutlierCutoff] receives is the complete log-delta vector: every position
    holds the value computed for it, and by then every goroutine has assigned
    its slot and has exited. *)
Theorem cutoff_observes_complete_vector (Log : float -> float)
    (Evaluate : Tour.t -> float) (tour : Tour.t)
    (sched : list Action) (s : RoundState) (v : list float) :
  roundRun (length (Tour.Tigs tour)) (slotValue Log Evaluate tour) sched
    (roundInit (length (Tour.Tigs tour))) = Some s ->
  observed s = Some v ->
  v = log10dsOf Log Evaluate tour /\
  length (goroutines s) = length (Tour.Tigs tour) /\
  forall g idx pc, goroutines s !! g = Some (idx, pc) -> pc = Exited.
Proof.
  intros Hrun Hv.
  pose proof (roundInv_run _ _ sched _ _ (roundInv_init _ _) Hrun) as Hinv.
  pose proof Hinv as (_ & Hmain & _ & _ & Hobs).
  destruct (Hobs v Hv) as [Hpc ->].
  unfold mainInv in Hmain. rewrite Hpc in Hmain. destruct Hmain as (Hgs & _ & Hp).
  split; [|split; [done|]].
  - rewrite log10dsOf_seq. apply roundInv_complete; auto.
  - intros g idx pc Hg. by eapply pending_zero_exited.
Qed.

(** A schedule for [twoTour]: the goroutine of position 0 assigns its slot
    while the loop is still starting goroutines, the goroutine of position 1
    exits first. *)
Definition interleaved : list Action :=
  [ MainStep; MainStep; GoStep 0; MainStep; MainStep; MainStep;
    GoStep 1; GoStep 1; GoStep 0; MainStep; MainStep ].

Lemma cutoff_observes_complete_vector_witness :
  [(-0x1.34413509f79ffp-2)%float; (-0x1.34413509f79ffp-2)%float]
    = log10dsOf (fun _ => 0%float) halfCost twoTour /\
  length [(0, Exited); (1, Exited)] = length (Tour.Tigs twoTour) /\
  forall g idx pc, [(0, Exited); (1, Exited)] !! g = Some (idx, pc) -> pc = Exited.
Proof.
  apply (cutoff_observes_complete_vector (fun _ => 0%float) halfCost twoTour interleaved
           (mkRoundState AfterCutoff 0 [(0, Exited); (1, Exited)]
              [(-0x1.34413509f79ffp-2)%float; (-0x1.34413509f79ffp-2)%float]
              (Some [(-0x1.34413509f79ffp-2)%float; (-0x1.34413509f79ffp-2)%float]))).
  - vm_compute. reflexivity.
  - reflexivity.
Defined.

(** [wg.Wait()] does not return while a started goroutine has not run
    [wg.Done()]: a schedule that moves the main goroutine past it then is not
    a schedule of the program. *)
Example wait_blocks_on_pending :
  roundRun 2 (slotValue (fun _ => 0%float) halfCost twoTour)
    [MainStep; MainStep; MainStep; MainStep; MainStep; GoStep 0; GoStep 1; GoStep 1;
     MainStep] (roundInit 2) = None.
Proof. vm_compute. reflexivity. Qed.
(** ** More of graph.go: the first pass of makeConfidenceGraph on binary64 *)

(** *** The order of the nonnegative binary64 values *)

Module NonNeg.

(** [x] is [+0], a positive number or [+Inf]. *)
Definition nonneg (x : float) : Prop := x = 0%float \/ Float64.lt 0 x = true.

(** A key whose lexicographic order is the order of the nonnegative values. *)
Definition key (x : float) : Z * Z * Z :=
  match Prim2SF x with
  | S754_zero _ => (0, 0, 0)
  | S754_finite _ m e => (1, e, Z.pos m)
  | S754_infinity _ => (2, 0, 0)
  | S754_nan => (3, 0, 0)
  end%Z.

Definition keyLt (k1 k2 : Z * Z * Z) : Prop :=
  (k1.1.1 < k2.1.1 \/
   (k1.1.1 = k2.1.1 /\ (k1.1.2 < k2.1.2 \/ (k1.1.2 = k2.1.2 /\ k1.2 < k2.2))))%Z.

Lemma nonneg_spec (x : float) :
  nonneg x ->
  Prim2SF x = S754_zero false \/ Prim2SF x = S754_infinity false \/
  exists m e, Prim2SF x = S754_finite false m e.
Proof.
  intros [->|Hpos]; [by left|].
  unfold Float64.lt in Hpos. rewrite FloatAxioms.ltb_spec in Hpos.
  change (Prim2SF 0) with (S754_zero false) in Hpos.
  destruct (Prim2SF x) as [s|s| |s m e]; try destruct s; try discriminate; eauto.
Qed.

Lemma lt_key (x y : float) :
  nonneg x -> nonneg y -> Float64.lt x y = true <-> keyLt (key x) (key y).
Proof.
  intros Hx Hy. unfold Float64.lt, key, keyLt. rewrite FloatAxioms.ltb_spec.
  destruct (nonneg_spec x Hx) as [->|[->|(m & e & ->)]];
    destruct (nonneg_spec y Hy) as [->|[->|(m' & e' & ->)]];
    unfold SFltb; simpl.
  all: try (split; [discriminate|lia]).
  all: try (split; [lia|done]).
  change (PosDef.Pos.compare_cont Eq m m') with (Pos.compare m m').
  destruct (Z.compare_spec e e'); [destruct (Pos.compare_spec m m')|..];
    (split; [try discriminate; lia|try done; lia]).
Qed.

Lemma le_key (x y : float) :
  nonneg x -> nonneg y -> Float64.le x y = true <-> ~ keyLt (key y) (key x).
Proof.
  intros Hx Hy. unfold Float64.le, key, keyLt. rewrite FloatAxioms.leb_spec.
  destruct (nonneg_spec x Hx) as [->|[->|(m & e & ->)]];
    destruct (nonneg_spec y Hy) as [->|[->|(m' & e' & ->)]];
    unfold SFleb; simpl.
  all: try (split; [lia|done]).
  all: try (split; [discriminate|lia]).
  change (PosDef.Pos.compare_cont Eq m m') with (Pos.compare m m').
  destruct (Z.compare_spec e e'); [destruct (Pos.compare_spec m m')|..];
    (split; [try discriminate; lia|try done; lia]).
Qed.

Lemma eq_key (x y : float) :
  nonneg x -> nonneg y -> Float64.eq x y = true <-> key x = key y.
Proof.
  intros Hx Hy. unfold Float64.eq, key. rewrite FloatAxioms.eqb_spec.
  destruct (nonneg_spec x Hx) as [->|[->|(m & e & ->)]];
    destruct (nonneg_spec y Hy) as [->|[->|(m' & e' & ->)]];
    unfold SFeqb; simpl.
  all: try (split; [discriminate|discriminate]).
  all: try (split; done).
  change (PosDef.Pos.compare_cont Eq m m') with (Pos.compare m m').
  destruct (Z.compare_spec e e'); [destruct (Pos.compare_spec m m')|..];
    (split; [try discriminate; intros _; repeat f_equal; lia|try done; intros [=]; lia]).
Qed.

(** Two nonnegative values with the same key are the same value. *)
Lemma key_inj (x y : float) : nonneg x -> nonneg y -> key x = key y -> x = y.
Proof.
  intros Hx Hy Hk. apply FloatAxioms.Prim2SF_inj. unfold key in Hk.
  destruct (nonneg_spec x Hx) as [Hx'|[Hx'|(m & e & Hx')]];
    destruct (nonneg_spec y Hy) as [Hy'|[Hy'|(m' & e' & Hy')]];
    rewrite Hx', Hy' in *; try done.
  by injection Hk as -> ->.
Qed.

Lemma nonneg_zero : nonneg 0.
Proof. by left. Qed.

Lemma nonneg_pos (x : float) : Float64.lt 0 x = true -> nonneg x.
Proof. by right. Qed.

(** A value that is not positive is never above a nonnegative one: it is [+0],
    [-0], negative or NaN. *)
Lemma not_above (x p : float) :
  Float64.lt 0 x = false -> nonneg p -> Float64.lt p x = false.
Proof.
  intros Hx [->|Hp]; [done|].
  destruct (Float64.lt p x) eqn:Hpx; [|done].
  by rewrite (Float64Facts.lt_trans _ _ _ Hp Hpx) in Hx.
Qed.

Lemma nonneg_ordered (x : float) : nonneg x -> Float64.eq x x = true.
Proof. intros Hx. by apply eq_key. Qed.

End NonNeg.

(** Decides the order of nonnegative values: every comparison becomes a
    comparison of keys. *)
Ltac key_facts :=
  repeat match goal with
    | H : Float64.lt ?x ?y = true |- _ =>
        apply NonNeg.lt_key in H; [|assumption..]
    | H : Float64.lt ?x ?y = false |- _ =>
        apply not_true_iff_false in H; rewrite NonNeg.lt_key in H by assumption
    | H : Float64.le ?x ?y = true |- _ =>
        apply NonNeg.le_key in H; [|assumption..]
    | H : Float64.le ?x ?y = false |- _ =>
        apply not_true_iff_false in H; rewrite NonNeg.le_key in H by assumption
    | H : Float64.eq ?x ?y = true |- _ =>
        apply NonNeg.eq_key in H; [|assumption..]
    | H : Float64.eq ?x ?y = false |- _ =>
        apply not_true_iff_false in H; rewrite NonNeg.eq_key in H by assumption
    end.

Ltac key_goal :=
  lazymatch goal with
  | |- Float64.lt _ _ = true => apply NonNeg.lt_key; [assumption..|]
  | |- Float64.lt _ _ = false =>
      apply not_true_iff_false; rewrite NonNeg.lt_key by assumption
  | |- Float64.le _ _ = true => apply NonNeg.le_key; [assumption..|]
  | |- Float64.le _ _ = false =>
      apply not_true_iff_false; rewrite NonNeg.le_key by assumption
  | |- Float64.eq _ _ = true => apply NonNeg.eq_key; [assumption..|]
  | |- Float64.eq _ _ = false =>
      apply not_true_iff_false; rewrite NonNeg.eq_key by assumption
  | |- @eq float _ _ => apply NonNeg.key_inj; [assumption..|]
  | |- _ => idtac
  end.

Ltac key_lia :=
  key_facts; key_goal;
  repeat match goal with
    | |- context [NonNeg.key ?x] =>
        let t := fresh "t" in let e := fresh "e" in let m := fresh "m" in
        destruct (NonNeg.key x) as [[t e] m]
    | H : context [NonNeg.key ?x] |- _ =>
        let t := fresh "t" in let e := fresh "e" in let m := fresh "m" in
        destruct (NonNeg.key x) as [[t e] m]
    end;
  unfold NonNeg.keyLt in *; simpl in *;
  repeat match goal with H : (_, _) = (_, _) |- _ => injection H as ? ? end;
  try (exfalso; lia); try lia;
  try (repeat f_equal; lia).


(** *** The first pass on binary64 *)

(** The accumulator [(first, second)] of the first loop: both nonnegative,
    [second <= first]. *)
Definition topTwo (acc : float * float) : Prop :=
  NonNeg.nonneg acc.1 /\ NonNeg.nonneg acc.2 /\ Float64.le acc.2 acc.1 = true.

Lemma topTwo_init : topTwo (0%float, 0%float).
Proof. repeat split; apply NonNeg.nonneg_zero. Qed.

(** A score that is not positive (zero, negative or NaN) changes nothing. *)
Lemma twoLargestStep_skip (acc : float * float) (x : float) :
  topTwo acc -> Float64.lt 0 x = false -> twoLargestStep acc x = acc.
Proof.
  intros (Hf & Hs & Hsf) Hx. destruct acc as [f s]. simpl in *.
  unfold twoLargestStep, num_gt. simpl.
  rewrite (NonNeg.not_above x f Hx Hf), (NonNeg.not_above x s Hx Hs).
  by rewrite andb_false_r.
Qed.

Ltac step_cases :=
  unfold twoLargestStep, num_gt; simpl;
  repeat match goal with
    | |- context [Float64.lt ?a ?b] =>
        let H := fresh "Hc" in destruct (Float64.lt a b) eqn:H; simpl
    | |- context [Float64.le ?a ?b] =>
        let H := fresh "Hc" in destruct (Float64.le a b) eqn:H; simpl
    end.

Lemma twoLargestStep_topTwo (acc : float * float) (x : float) :
  topTwo acc -> topTwo (twoLargestStep acc x).
Proof.
  intros Hacc. destruct (Float64.lt 0 x) eqn:Hx.
  - apply NonNeg.nonneg_pos in Hx. destruct Hacc as (Hf & Hs & Hsf).
    destruct acc as [f s]. simpl in *. unfold topTwo.
    step_cases; repeat split; simpl; try assumption; key_lia.
  - by rewrite twoLargestStep_skip.
Qed.

Lemma twoLargestStep_comm_float (acc : float * float) (x y : float) :
  topTwo acc ->
  twoLargestStep (twoLargestStep acc x) y = twoLargestStep (twoLargestStep acc y) x.
Proof.
  intros Hacc.
  destruct (Float64.lt 0 x) eqn:Hx;
    [|by rewrite !(twoLargestStep_skip _ x) by (done || by apply twoLargestStep_topTwo)].
  destruct (Float64.lt 0 y) eqn:Hy;
    [|by rewrite !(twoLargestStep_skip _ y) by (done || by apply twoLargestStep_topTwo)].
  apply NonNeg.nonneg_pos in Hx, Hy. destruct Hacc as (Hf & Hs & Hsf).
  destruct acc as [f s]. simpl in *.
  step_cases; try reflexivity; f_equal; key_lia.
Qed.
